(** * UniValue: the JSON value type of src/univalue/lib/univalue.cpp

    A shallow embedding of the variant container, its ordered Object and
    Array payloads, the setters, the throwing and non-throwing accessors,
    equality and type-name formatting, followed by the properties the
    specification states about them. *)

From Stdlib Require Import ZArith List String Ascii Bool Lia.
From Stdlib Require Import PrimFloat SpecFloat FloatOps.
From Stdlib Require Import Sorted Permutation.
Import ListNotations.

Local Open Scope string_scope.
Local Open Scope Z_scope.

#[local] Set Warnings "-inexact-float".

(** ** Data model *)

(** [UniValue::VType]: the seven tags. *)
Inductive VType : Type :=
  VNULL | VFALSE | VTRUE | VOBJ | VARR | VNUM | VSTR.

Definition VType_eqb (a b : VType) : bool :=
  match a, b with
  | VNULL, VNULL | VFALSE, VFALSE | VTRUE, VTRUE | VOBJ, VOBJ
  | VARR, VARR | VNUM, VNUM | VSTR, VSTR => true
  | _, _ => false
  end.

(** The class has the four members [typ], [val], [entries] and [values];
    all four exist whatever the tag is.  [entries] is the [Object]'s vector of
    (key, value) pairs, [values] the [Array]'s vector. *)
#[local] Unset Elimination Schemes.
Inductive UniValue : Type :=
  mkUniValue {
    typ : VType;
    val : string;
    entries : list (string * UniValue);
    values : list UniValue
  }.
#[local] Set Elimination Schemes.

Definition Object : Type := list (string * UniValue).
Definition Array : Type := list UniValue.

(** [const UniValue NullUniValue;] is default-constructed. *)
Definition NullUniValue : UniValue := mkUniValue VNULL "" [] [].

(** A [size_type] index is only ever compared with [vector.size()] and
    printed, so it is a natural number here. *)
Definition size_type : Type := nat.

(** What a returned [UniValue&] or [UniValue*] designates: the shared
    sentinel, the [second] of the pair at a position of an Object's vector,
    or the element at a position of an Array's vector. *)
Inductive uvref : Type :=
| ref_NullUniValue
| ref_entry (pos : nat)
| ref_value (pos : nat).

(** The value a reference designates inside [v]. *)
Definition deref (v : UniValue) (r : uvref) : option UniValue :=
  match r with
  | ref_NullUniValue => Some NullUniValue
  | ref_entry pos => option_map snd (nth_error (entries v) pos)
  | ref_value pos => nth_error (values v) pos
  end.

(** The two exception classes the accessors throw, with the message they
    are constructed with. *)
Inductive exception : Type :=
| out_of_range (what : string)
| domain_error (what : string).

Inductive result (A : Type) : Type :=
| Return (a : A)
| Throw (e : exception).
Arguments Return {A} a.
Arguments Throw {A} e.

(** [needle] occurs in [msg]. *)
Definition contains (msg needle : string) : Prop :=
  exists pre post, msg = pre ++ needle ++ post.

(** ** Decimal output: [std::to_string] and [snprintf] with PRId64 / PRIu64 *)

Definition digit_char (d : Z) : ascii := ascii_of_nat (48 + Z.to_nat d).

(** Digits are produced least significant first and pushed in front of
    what is already there; [fuel] bounds the number of digits. *)
Fixpoint utoa_fuel (fuel : nat) (n : Z) (acc : string) : string :=
  match fuel with
  | O => acc
  | S fuel' =>
      let acc' := String (digit_char (n mod 10)) acc in
      if n <? 10 then acc' else utoa_fuel fuel' (n / 10) acc'
  end.

(** Unsigned decimal conversion; a number has at most [log2 n + 1] digits. *)
Definition utoa (n : Z) : string :=
  utoa_fuel (S (Z.to_nat (Z.log2 n))) n "".

(** Signed decimal conversion. *)
Definition itoa (x : Z) : string :=
  if x <? 0 then String "-" (utoa (- x)) else utoa x.

(** [std::to_string(size_type)]. *)
Definition to_string (n : size_type) : string := utoa (Z.of_nat n).

(** ** Object container *)

Module Obj.

(** [UniValue::Object::locate], const and non-const alike: the range-for
    loop over [vector], with the position of the current entry. *)
Fixpoint locate_from (pos : nat) (key : string) (vector : Object) : option uvref :=
  match vector with
  | [] => None
  | entry :: rest =>
      if String.eqb (fst entry) key then Some (ref_entry pos)
      else locate_from (S pos) key rest
  end.

Definition locate (key : string) (o : Object) : option uvref :=
  locate_from 0 key o.

(** [operator[](const std::string&)] *)
Definition index_key (o : Object) (key : string) : uvref :=
  match locate key o with
  | Some found => found
  | None => ref_NullUniValue
  end.

(** [operator[](size_type)] *)
Definition index (o : Object) (index : size_type) : uvref :=
  if (index <? List.length o)%nat then ref_entry index else ref_NullUniValue.

(** [at(const std::string&)] *)
Definition at_key (o : Object) (key : string) : result uvref :=
  match locate key o with
  | Some found => Return found
  | None => Throw (out_of_range ("Key not found in JSON object: " ++ key))
  end.

(** [at(size_type)] *)
Definition at_index (o : Object) (index : size_type) : result uvref :=
  if (index <? List.length o)%nat then Return (ref_entry index)
  else Throw (out_of_range
                ("Index " ++ to_string index
                 ++ " out of range in JSON object of length "
                 ++ to_string (List.length o))).

Definition front (o : Object) : uvref :=
  if negb (Nat.eqb (List.length o) 0) then ref_entry 0 else ref_NullUniValue.

Definition back (o : Object) : uvref :=
  if negb (Nat.eqb (List.length o) 0) then ref_entry (List.length o - 1)
  else ref_NullUniValue.

End Obj.

(** ** Array container *)

Module Arr.

(** [operator[](size_type)] *)
Definition index (a : Array) (index : size_type) : uvref :=
  if (index <? List.length a)%nat then ref_value index else ref_NullUniValue.

(** [at(size_type)] *)
Definition at_index (a : Array) (index : size_type) : result uvref :=
  if (index <? List.length a)%nat then Return (ref_value index)
  else Throw (out_of_range
                ("Index " ++ to_string index
                 ++ " out of range in JSON array of length "
                 ++ to_string (List.length a))).

Definition front (a : Array) : uvref :=
  if negb (Nat.eqb (List.length a) 0) then ref_value 0 else ref_NullUniValue.

Definition back (a : Array) : uvref :=
  if negb (Nat.eqb (List.length a) 0) then ref_value (List.length a - 1)
  else ref_NullUniValue.

End Arr.

(** ** Type transitions and setters *)

(** A setter assigns one member after another; these are the member
    updates. *)
Definition set_typ (t : VType) (v : UniValue) : UniValue :=
  mkUniValue t (val v) (entries v) (values v).
Definition set_val (s : string) (v : UniValue) : UniValue :=
  mkUniValue (typ v) s (entries v) (values v).
Definition set_entries (o : Object) (v : UniValue) : UniValue :=
  mkUniValue (typ v) (val v) o (values v).
Definition set_values (a : Array) (v : UniValue) : UniValue :=
  mkUniValue (typ v) (val v) (entries v) a.

(** [typ = VNULL; val.clear(); entries.clear(); values.clear();] *)
Definition setNull (v : UniValue) : UniValue :=
  set_values [] (set_entries [] (set_val "" (set_typ VNULL v))).

Definition setBool (val_ : bool) (v : UniValue) : UniValue :=
  set_typ (if val_ then VTRUE else VFALSE) (setNull v).

Definition setObject (v : UniValue) : UniValue :=
  set_typ VOBJ (setNull v).

(** [setObject(const Object&)] and [setObject(Object&&)] *)
Definition setObject_from (object : Object) (v : UniValue) : UniValue :=
  set_entries object (setObject v).

Definition setArray (v : UniValue) : UniValue :=
  set_typ VARR (setNull v).

(** [setArray(const Array&)] and [setArray(Array&&)] *)
Definition setArray_from (array : Array) (v : UniValue) : UniValue :=
  set_values array (setArray v).

(** Modelled from the spec: [enum jtokentype] is declared in univalue.h,
    which is not among the sources; the code names [JTOK_NUMBER] only, every
    other classification of the tokenizer is one constructor here. *)
Inductive jtokentype : Type := JTOK_NUMBER | JTOK_OTHER.

Definition jtokentype_eqb (a b : jtokentype) : bool :=
  match a, b with
  | JTOK_NUMBER, JTOK_NUMBER | JTOK_OTHER, JTOK_OTHER => true
  | _, _ => false
  end.

Section NumericSetters.

(** [getJsonToken] is the tokenizer of the reader, defined in another
    translation unit.  Given the text it yields the token type together
    with the two out-parameters [tokenVal] and [consumed]. *)
Variable getJsonToken : string -> jtokentype * string * nat.

Definition validNumStr (s : string) : bool :=
  let '(token_type, tokenVal, consumed) := getJsonToken s in
  jtokentype_eqb token_type JTOK_NUMBER.

(** [setNumStr(const std::string&)] and [setNumStr(std::string&&)] *)
Definition setNumStr (val_ : string) (v : UniValue) : UniValue :=
  if negb (validNumStr val_) then v
  else set_val val_ (set_typ VNUM (setNull v)).

(** [oss << std::setprecision(16) << val_] on a stream imbued with the
    classic locale: the text is produced by the C++ stream library. *)
Variable ostream_setprecision16 : float -> string.

Definition setFloat (val_ : float) (v : UniValue) : UniValue :=
  if negb (PrimFloat.is_finite val_) then v
  else set_val (ostream_setprecision16 val_) (set_typ VNUM (setNull v)).

End NumericSetters.

Definition bufSize : Z := 21.

(** [std::snprintf(buf, size, fmt, val_)] with the format of PRId64 when
    [is_signed] and of PRIu64 otherwise: the return value is the length of
    the complete conversion, the buffer receives at most [size - 1] of its
    characters. *)
Definition snprintf (size : Z) (is_signed : bool) (val_ : Z) : string * Z :=
  let full := if is_signed then itoa val_ else utoa val_ in
  (substring 0 (Z.to_nat (size - 1)) full, Z.of_nat (String.length full)).

(** [setInt64<Integer>]: [is_signed] is [std::is_signed<Integer>::value],
    [val_] a value of the 64-bit type [Integer]. *)
Definition setInt64 (is_signed : bool) (val_ : Z) (v : UniValue) : UniValue :=
  let '(buf, n) := snprintf bufSize is_signed val_ in
  if (n <=? 0) || (n >=? bufSize) then v
  else set_val (substring 0 (Z.to_nat n) buf) (set_typ VNUM (setNull v)).

(** The eight [setInt] overloads. *)
Inductive IntegerType : Type :=
| t_short | t_int | t_long | t_long_long
| t_unsigned_short | t_unsigned | t_unsigned_long | t_unsigned_long_long.

(** Which instance of [setInt64] an overload calls: [int64_t] for the
    signed types, [uint64_t] for the unsigned ones. *)
Definition converts_to_signed (ty : IntegerType) : bool :=
  match ty with
  | t_short | t_int | t_long | t_long_long => true
  | _ => false
  end.

(** Width of each argument type (LP64); none exceeds 64 bits. *)
Definition bits (ty : IntegerType) : Z :=
  match ty with
  | t_short | t_unsigned_short => 16
  | t_int | t_unsigned => 32
  | t_long | t_unsigned_long | t_long_long | t_unsigned_long_long => 64
  end.

(** The values of an argument type. *)
Definition in_range (ty : IntegerType) (x : Z) : Prop :=
  if converts_to_signed ty
  then - 2 ^ (bits ty - 1) <= x < 2 ^ (bits ty - 1)
  else 0 <= x < 2 ^ bits ty.

(** The conversion to the 64-bit type preserves the value. *)
Definition setInt (ty : IntegerType) (val_ : Z) (v : UniValue) : UniValue :=
  setInt64 (converts_to_signed ty) val_ v.

Definition setStr (val_ : string) (v : UniValue) : UniValue :=
  set_val val_ (set_typ VSTR (setNull v)).

(** ** Accessors of a value *)

(** [UniValue::locate]: no test of the tag, the Object member is searched. *)
Definition locate (v : UniValue) (key : string) : option uvref :=
  Obj.locate key (entries v).

(** [operator[](const std::string&)] *)
Definition index_key (v : UniValue) (key : string) : uvref :=
  match locate v key with
  | Some found => found
  | None => ref_NullUniValue
  end.

(** [operator[](size_type)] *)
Definition index (v : UniValue) (index : size_type) : uvref :=
  match typ v with
  | VOBJ => Obj.index (entries v) index
  | VARR => Arr.index (values v) index
  | _ => ref_NullUniValue
  end.

Definition front (v : UniValue) : uvref :=
  match typ v with
  | VOBJ => Obj.front (entries v)
  | VARR => Arr.front (values v)
  | _ => ref_NullUniValue
  end.

Definition back (v : UniValue) : uvref :=
  match typ v with
  | VOBJ => Obj.back (entries v)
  | VARR => Arr.back (values v)
  | _ => ref_NullUniValue
  end.

(** [const char *uvTypeName(UniValue::VType)] *)
Definition uvTypeName (t : VType) : string :=
  match t with
  | VNULL => "null"
  | VFALSE => "false"
  | VTRUE => "true"
  | VOBJ => "object"
  | VARR => "array"
  | VNUM => "number"
  | VSTR => "string"
  end.

(** [at(const std::string&)] *)
Definition at_key (v : UniValue) (key : string) : result uvref :=
  if VType_eqb (typ v) VOBJ then Obj.at_key (entries v) key
  else Throw (domain_error
                ("Cannot look up keys in JSON " ++ uvTypeName (typ v)
                 ++ ", expected object with key: " ++ key)).

(** [at(size_type)] *)
Definition at_index (v : UniValue) (index : size_type) : result uvref :=
  match typ v with
  | VOBJ => Obj.at_index (entries v) index
  | VARR => Arr.at_index (values v) index
  | _ => Throw (domain_error
                  ("Cannot look up indices in JSON " ++ uvTypeName (typ v)
                   ++ ", expected array or object larger than "
                   ++ to_string index ++ " elements"))
  end.

(** ** Equality *)

Section VectorEq.
Context {A : Type} (elem_eqb : A -> A -> bool).

(** Modelled from the spec: [operator==] of [Object] and of [Array] is
    declared in univalue.h, which is not among the sources.  It compares
    the two vectors: same length and equal elements position by position,
    a pair being equal when key and value both are. *)
Fixpoint vector_eqb (l1 l2 : list A) : bool :=
  match l1, l2 with
  | [], [] => true
  | x :: r1, y :: r2 => elem_eqb x y && vector_eqb r1 r2
  | _, _ => false
  end.
End VectorEq.

(** [UniValue::operator==] *)
Fixpoint uv_eqb (a b : UniValue) {struct a} : bool :=
  if negb (VType_eqb (typ a) (typ b)) then false
  else
    match a with
    | mkUniValue typ_a val_a entries_a values_a =>
        match typ_a with
        | VOBJ =>
            vector_eqb
              (fun p q => String.eqb (fst p) (fst q) && uv_eqb (snd p) (snd q))
              entries_a (entries b)
        | VARR => vector_eqb uv_eqb values_a (values b)
        | VNUM | VSTR => String.eqb val_a (val b)
        | VNULL | VFALSE | VTRUE => true
        end
    end.

(** ** Type names of a mask *)

Section TypeMask.

(** The numeric values of the [VType] enumerators, declared in
    univalue.h. *)
Variable VType_value : VType -> Z.

(** The lambda of [uvTypeName(int)], with the captured [result] passed in
    and handed back. *)
Definition appendTypeNameIfTypeIncludes
    (t : Z) (type : VType) (result : string) : string :=
  if negb (Z.land t (VType_value type) =? 0) then
    let result :=
      if negb (String.eqb result "") then result ++ "/" else result in
    result ++ uvTypeName type
  else result.

(** [std::string uvTypeName(int t)] *)
Definition uvTypeName_mask (t : Z) : string :=
  let result := "" in
  let result := appendTypeNameIfTypeIncludes t VNULL result in
  let result := appendTypeNameIfTypeIncludes t VFALSE result in
  let result := appendTypeNameIfTypeIncludes t VTRUE result in
  let result := appendTypeNameIfTypeIncludes t VOBJ result in
  let result := appendTypeNameIfTypeIncludes t VARR result in
  let result := appendTypeNameIfTypeIncludes t VNUM result in
  let result := appendTypeNameIfTypeIncludes t VSTR result in
  result.

End TypeMask.

(** ** Notions used to state the properties *)

(** The first position of [o] that holds [key]: the entry there has the key
    and no earlier entry has. *)
Definition first_match (o : Object) (key : string) (pos : nat) : Prop :=
  (exists value, nth_error o pos = Some (key, value))
  /\ forall earlier entry,
       (earlier < pos)%nat -> nth_error o earlier = Some entry ->
       fst entry <> key.

(** No entry of [o] has [key]. *)
Definition absent (o : Object) (key : string) : Prop :=
  forall entry, In entry o -> fst entry <> key.

(** What a lookup of [key] in [o] may end in: the reference to the first
    match, or an out-of-range error that carries the key. *)
Definition key_lookup (o : Object) (key : string) (r : result uvref) : Prop :=
  (exists pos, first_match o key pos /\ r = Return (ref_entry pos))
  \/ (absent o key
      /\ exists msg, r = Throw (out_of_range msg) /\ contains msg key).

(** What a positional access into a vector of [size] elements may end in:
    the reference [here] when the index is below the size, or an
    out-of-range error that carries index and size. *)
Definition position_lookup
    (size : nat) (index : size_type) (here : uvref) (r : result uvref) : Prop :=
  ((index < size)%nat /\ r = Return here)
  \/ ((size <= index)%nat
      /\ exists msg,
           r = Throw (out_of_range msg)
           /\ contains msg (to_string index)
           /\ contains msg (to_string size)).



(** Number of elements of the container the tag selects. *)
Definition active_size (v : UniValue) : nat :=
  match typ v with
  | VOBJ => List.length (entries v)
  | VARR => List.length (values v)
  | _ => 0%nat
  end.

(** The element at [pos] of the container the tag selects. *)
Definition active_element (v : UniValue) (pos : nat) : option UniValue :=
  match typ v with
  | VOBJ => option_map snd (nth_error (entries v) pos)
  | VARR => nth_error (values v) pos
  | _ => None
  end.

(** The canonical order of the tags. *)
Definition canonical_order : list VType :=
  [VNULL; VFALSE; VTRUE; VOBJ; VARR; VNUM; VSTR].

(** The names of the tags of the canonical order whose bit is set in [t],
    [bit] giving the bit position of each tag. *)
Definition names_of_set_bits (bit : VType -> Z) (t : Z) : list string :=
  map uvTypeName (filter (fun type => Z.testbit t (bit type)) canonical_order).

(** Appending names one after another to what is there already, with a
    slash before a name unless nothing is there. *)
Fixpoint join_onto (result : string) (names : list string) : string :=
  match names with
  | [] => result
  | name :: rest =>
      join_onto
        (if String.eqb result "" then name else (result ++ "/") ++ name) rest
  end.

(** The parts of a text between slashes. *)
Fixpoint components (s : string) : list string :=
  match s with
  | "" => [""]
  | String c rest =>
      if Ascii.eqb c "/" then "" :: components rest
      else match components rest with
           | part :: parts => String c part :: parts
           | [] => [String c ""]
           end
  end.

(** Whether [name] is one of the parts of [s]. *)
Definition lists_name (s name : string) : bool :=
  existsb (String.eqb name) (components s).

(** The names of the tags that [selected] holds for, in the canonical
    order, joined by slashes. *)
Definition joined_names (selected : VType -> bool) : string :=
  String.concat "/" (map uvTypeName (filter selected canonical_order)).

(** ** Example values *)

(** A Number with the given text. *)
Definition example_number (text : string) : UniValue :=
  mkUniValue VNUM text [] [].

(** The entries [("a",1), ("b",2), ("a",3)], appended in this order. *)
Definition example_object : Object :=
  [("a", example_number "1"); ("b", example_number "2");
   ("a", example_number "3")].

Definition example_array : Array :=
  [example_number "10"; example_number "20"].

(** Modelled from the spec: the values of the [VType] enumerators are
    declared in univalue.h, which is not among the sources.  The
    specification has masks of tags with one bit per tag, in the canonical
    order; this assignment is the instance the mask is run with. *)
Definition flag_bit (t : VType) : Z :=
  match t with
  | VNULL => 0 | VFALSE => 1 | VTRUE => 2 | VOBJ => 3
  | VARR => 4 | VNUM => 5 | VSTR => 6
  end.

Definition flag_value (t : VType) : Z := Z.shiftl 1 (flag_bit t).

(** ** Setter calls and the consistency of tag and payload *)

(** The payload members that the tag does not select are empty. *)
Definition payload_consistent (v : UniValue) : Prop :=
  (typ v <> VOBJ -> entries v = [])
  /\ (typ v <> VARR -> values v = [])
  /\ (typ v <> VNUM -> typ v <> VSTR -> val v = "").

(** One call of a setter, with its argument. *)
Inductive setter_call : Type :=
| call_setNull
| call_setBool (val_ : bool)
| call_setObject
| call_setObject_from (object : Object)
| call_setArray
| call_setArray_from (array : Array)
| call_setNumStr (val_ : string)
| call_setInt (ty : IntegerType) (val_ : Z)
| call_setFloat (val_ : float)
| call_setStr (val_ : string).

Section SetterCalls.

Variable getJsonToken : string -> jtokentype * string * nat.
Variable ostream_setprecision16 : float -> string.

Definition run_setter (c : setter_call) (v : UniValue) : UniValue :=
  match c with
  | call_setNull => setNull v
  | call_setBool val_ => setBool val_ v
  | call_setObject => setObject v
  | call_setObject_from object => setObject_from object v
  | call_setArray => setArray v
  | call_setArray_from array => setArray_from array v
  | call_setNumStr val_ => setNumStr getJsonToken val_ v
  | call_setInt ty val_ => setInt ty val_ v
  | call_setFloat val_ => setFloat ostream_setprecision16 val_ v
  | call_setStr val_ => setStr val_ v
  end.

(** The calls that return before they assign: a text that is not a Number
    token, a double that is not finite, a conversion that does not fit the
    buffer. *)
Definition rejected (c : setter_call) : bool :=
  match c with
  | call_setNumStr val_ => negb (validNumStr getJsonToken val_)
  | call_setFloat val_ => negb (PrimFloat.is_finite val_)
  | call_setInt ty val_ =>
      let n := snd (snprintf bufSize (converts_to_signed ty) val_) in
      (n <=? 0) || (n >=? bufSize)
  | _ => false
  end.

(** The values built from a default-constructed one by setter calls. *)
Inductive constructed : UniValue -> Prop :=
| constructed_default : constructed NullUniValue
| constructed_set (c : setter_call) (v : UniValue) :
    constructed v -> constructed (run_setter c v).

End SetterCalls.

(** ** Reading a decimal text back *)

Definition is_digit (c : ascii) : bool :=
  (48 <=? nat_of_ascii c)%nat && (nat_of_ascii c <=? 57)%nat.

Definition digit_value (c : ascii) : Z := Z.of_nat (nat_of_ascii c) - 48.

(** The number a run of decimal digits denotes, most significant digit
    first; no result when another character occurs. *)
Fixpoint read_digits (s : string) (acc : Z) : option Z :=
  match s with
  | "" => Some acc
  | String c rest =>
      if is_digit c then read_digits rest (10 * acc + digit_value c)
      else None
  end.

Definition read_unsigned (s : string) : option Z :=
  match s with
  | "" => None
  | _ => read_digits s 0
  end.

(** Whether the text starts with a minus sign, and the text after it. *)
Definition has_minus (s : string) : bool :=
  match s with
  | String "-"%char _ => true
  | _ => false
  end.

Definition digits_of (s : string) : string :=
  match s with
  | String "-"%char rest => rest
  | _ => s
  end.

Definition read_int (s : string) : option Z :=
  if has_minus s then option_map Z.opp (read_unsigned (digits_of s))
  else read_unsigned s.

(** Whether every character of the text is a decimal digit. *)
Definition all_digits (s : string) : bool :=
  forallb is_digit (list_ascii_of_string s).

(** No leading zero, except in the text "0" itself. *)
Definition no_leading_zero (digits : string) : Prop :=
  digits = "0"
  \/ exists c rest, digits = String c rest /\ c <> "0"%char.

(** ** The external text routines, as instances to run the setters with *)

Fixpoint skip_digits (s : string) : string :=
  match s with
  | String c rest => if is_digit c then skip_digits rest else s
  | "" => ""
  end.

(** One digit at least, then what follows the digits. *)
Definition digits1 (s : string) : option string :=
  match s with
  | String c rest => if is_digit c then Some (skip_digits rest) else None
  | "" => None
  end.

Definition number_int_part (s : string) : option string :=
  match s with
  | String "0"%char rest => Some rest
  | _ => digits1 s
  end.

Definition number_frac_part (s : string) : option string :=
  match s with
  | String "."%char rest => digits1 rest
  | _ => Some s
  end.

Definition number_exp_part (s : string) : option string :=
  match s with
  | String "e"%char rest | String "E"%char rest =>
      match rest with
      | String "+"%char rest' | String "-"%char rest' => digits1 rest'
      | _ => digits1 rest
      end
  | _ => Some s
  end.

(** Modelled from the spec: the number tokenizer [getJsonToken] belongs to
    the reader, which is not among the sources.  The specification has it
    report whether the text forms one complete, valid JSON number token:
    an optional minus sign, an integer part without leading zero, an
    optional fraction and an optional exponent, and nothing after them. *)
Definition is_json_number (s : string) : bool :=
  match number_int_part (digits_of s) with
  | Some after_int =>
      match number_frac_part after_int with
      | Some after_frac =>
          match number_exp_part after_frac with
          | Some "" => true
          | _ => false
          end
      | None => false
      end
  | None => false
  end.

(** Modelled from the spec: [getJsonToken] of the reader, which is not
    among the sources, as the specification describes it: the token type is
    [JTOK_NUMBER] exactly for a text that is one complete JSON number, with
    the token text and the number of characters consumed. *)
Definition json_number_token (s : string) : jtokentype * string * nat :=
  if is_json_number s then (JTOK_NUMBER, s, String.length s)
  else (JTOK_OTHER, "", 0%nat).

(** Whether [num / den] is at least [10 ^ X]. *)
Definition at_least_pow10 (num den X : Z) : bool :=
  if 0 <=? X then den * 10 ^ X <=? num else den <=? num * 10 ^ (- X).

Fixpoint exponent_search (fuel : nat) (num den X : Z) : Z :=
  match fuel with
  | O => X
  | S fuel' =>
      if at_least_pow10 num den (X + 1)
      then exponent_search fuel' num den (X + 1)
      else X
  end.

(** The decimal exponent of [num / den]: the search starts below it, from
    an estimate by the binary logarithms. *)
Definition decimal_exponent (num den : Z) : Z :=
  exponent_search 8 num den
    ((Z.log2 num - Z.log2 den - 1) * 30103 / 100000 - 1).

Definition round_half_even (a b : Z) : Z :=
  match 2 * (a mod b) ?= b with
  | Lt => a / b
  | Gt => a / b + 1
  | Eq => if Z.even (a / b) then a / b else a / b + 1
  end.

(** The 16 significant digits of [num / den], as a number, with the decimal
    exponent of the rounded value. *)
Definition significant16 (num den : Z) : Z * Z :=
  let X := decimal_exponent num den in
  let q :=
    if X <=? 15 then round_half_even (num * 10 ^ (15 - X)) den
    else round_half_even num (den * 10 ^ (X - 15)) in
  if q =? 10 ^ 16 then (10 ^ 15, X + 1) else (q, X).

Fixpoint strip_trailing_zeros (s : string) : string :=
  match s with
  | "" => ""
  | String c rest =>
      let rest' := strip_trailing_zeros rest in
      if Ascii.eqb c "0" && String.eqb rest' "" then "" else String c rest'
  end.

Definition with_fraction (int_part frac : string) : string :=
  let frac' := strip_trailing_zeros frac in
  if String.eqb frac' "" then int_part else int_part ++ "." ++ frac'.

Fixpoint zeros (n : nat) : string :=
  match n with
  | O => ""
  | S n' => String "0" (zeros n')
  end.

Definition fixed_notation (X : Z) (digits : string) : string :=
  if 0 <=? X
  then with_fraction (substring 0 (Z.to_nat (X + 1)) digits)
                     (substring (Z.to_nat (X + 1)) 16 digits)
  else with_fraction "0" (zeros (Z.to_nat (- X - 1)) ++ digits).

Definition scientific_notation (X : Z) (digits : string) : string :=
  with_fraction (substring 0 1 digits) (substring 1 16 digits)
  ++ "e" ++ (if X <? 0 then "-" else "+")
  ++ (if Z.abs X <? 10 then "0" else "") ++ utoa (Z.abs X).

(** The stream formatting belongs to the C++ library.  This instance is the
    text of a double under [std::setprecision(16)] with the default float
    field in the classic locale: 16 significant digits, fixed notation for a
    decimal exponent from -4 to 15 and scientific notation otherwise,
    trailing zeros of the fraction dropped. *)
Definition classic_setprecision16 (d : float) : string :=
  match Prim2SF d with
  | S754_zero s => if s then "-0" else "0"
  | S754_infinity s => if s then "-inf" else "inf"
  | S754_nan => "nan"
  | S754_finite s m e =>
      let '(q, X) :=
        if 0 <=? e then significant16 (Z.pos m * 2 ^ e) 1
        else significant16 (Z.pos m) (2 ^ (- e)) in
      (if s then "-" else "")
      ++ (if (-4 <=? X) && (X <? 16) then fixed_notation X (utoa q)
          else scientific_notation X (utoa q))
  end.

(** ** Induction over nested values *)

Section NestedInduction.

Variable P : UniValue -> Prop.
Hypothesis step :
  forall t s es vs,
    Forall (fun entry => P (snd entry)) es -> Forall P vs ->
    P (mkUniValue t s es vs).

(** Induction on a value with the hypothesis for every value stored in its
    Object member and in its Array member. *)
Fixpoint UniValue_nested_ind (v : UniValue) : P v :=
  match v with
  | mkUniValue t s es vs =>
      step t s es vs
        ((fix entries_ind (l : list (string * UniValue)) :
            Forall (fun entry => P (snd entry)) l :=
            match l with
            | [] => Forall_nil _
            | entry :: rest =>
                Forall_cons entry (UniValue_nested_ind (snd entry))
                  (entries_ind rest)
            end) es)
        ((fix values_ind (l : list UniValue) : Forall P l :=
            match l with
            | [] => Forall_nil _
            | x :: rest => Forall_cons x (UniValue_nested_ind x) (values_ind rest)
            end) vs)
  end.

End NestedInduction.

(** A value whose unselected payloads are empty, as are those of every
    value stored below it. *)
#[local] Unset Elimination Schemes.
Inductive consistent_tree : UniValue -> Prop :=
| consistent_tree_node (v : UniValue) :
    payload_consistent v ->
    Forall (fun entry => consistent_tree (snd entry)) (entries v) ->
    Forall consistent_tree (values v) ->
    consistent_tree v.
#[local] Set Elimination Schemes.

(** ** Sequences of setter calls *)

Section SetterSequences.

Variable getJsonToken : string -> jtokentype * string * nat.
Variable ostream_setprecision16 : float -> string.

(** Setter calls made one after another on the same value. *)
Definition run_setters (calls : list setter_call) (v : UniValue) : UniValue :=
  fold_left
    (fun value c => run_setter getJsonToken ostream_setprecision16 c value)
    calls v.

(** The latest call of the sequence that is not rejected. *)
Definition last_accepted (calls : list setter_call) : option setter_call :=
  find (fun c => negb (rejected getJsonToken c)) (rev calls).

End SetterSequences.

(** * Block statistics and difficulty of src/rpc/blockchain.cpp *)

(** ** 64-bit arithmetic and sorting *)

(** The value an [int64_t] holds after an addition: the sum reduced to the
    64 bits of the type. *)
Definition wrap64 (z : Z) : Z :=
  (z + 9223372036854775808) mod 18446744073709551616 - 9223372036854775808.

(** The conversion of an integer to [double]: the nearest double, ties to
    even. *)
Definition double_of_int64 (x : Z) : float :=
  SF2Prim (binary_normalize prec emax x 0 false).

Section Sort.

Context {A : Type} (leb : A -> A -> bool).

Fixpoint insert_sorted (x : A) (l : list A) : list A :=
  match l with
  | [] => [x]
  | y :: rest => if leb x y then x :: l else y :: insert_sorted x rest
  end.

(** [std::sort(first, last)] leaves the elements in ascending order.  On
    the integers and pairs of integers sorted here, elements that compare
    equal are identical, so that there is one such arrangement whatever the
    algorithm; it is computed by insertion. *)
Fixpoint std_sort (l : list A) : list A :=
  match l with
  | [] => []
  | x :: rest => insert_sorted x (std_sort rest)
  end.

End Sort.

(** The order [std::sort] uses on [std::pair<Amount, int64_t>], an amount
    being its number of satoshis: by the first component, then by the
    second. *)
Definition pair_leb (a b : Z * Z) : bool :=
  (fst a <? fst b) || ((fst a =? fst b) && (snd a <=? snd b)).

Definition pair_le (a b : Z * Z) : Prop :=
  fst a < fst b \/ (fst a = fst b /\ snd a <= snd b).

(** ** Median *)

(** [CalculateTruncatedMedian<int64_t>]: the result, and the vector as the
    call leaves it, since it is sorted in place. *)
Definition CalculateTruncatedMedian (scores : list Z) : Z * list Z :=
  let size := List.length scores in
  if Nat.eqb size 0 then (0, scores)
  else
    let scores := std_sort Z.leb scores in
    if Nat.eqb (size mod 2) 0
    then (Z.quot (wrap64 (nth (size / 2 - 1) scores 0 + nth (size / 2) scores 0))
                 2,
          scores)
    else (nth (size / 2) scores 0, scores).

(** How many elements are at most, and at least, a given value. *)
Definition count_le (bound : Z) (l : list Z) : nat :=
  List.length (filter (fun x => x <=? bound) l).

Definition count_ge (bound : Z) (l : list Z) : nat :=
  List.length (filter (fun x => bound <=? x) l).

(** Values whose pairwise sums fit 64 bits. *)
Definition half_range (x : Z) : Prop :=
  - 4611686018427387904 <= x < 4611686018427387904.

(** ** Percentiles by size *)

(** The number of percentiles.  The constant is declared in
    rpc/blockchain.h, which is not among the sources; the [weights] array of
    this length is initialised with five values, for the five percentiles
    its comment names. *)
Definition NUM_GETBLOCKSTATS_PERCENTILES : nat := 5.

(** [result[index] = value] *)
Fixpoint assign (index : nat) (value : Z) (result : list Z) : list Z :=
  match result, index with
  | [], _ => []
  | _ :: rest, O => value :: rest
  | x :: rest, S index' => x :: assign index' value rest
  end.

(** The 10th, 25th, 50th, 75th and 90th percentile weight units. *)
Definition percentile_weights (total_size : Z) : list float :=
  let t := double_of_int64 total_size in
  [t / 10; t / 4; t / 2; (t * 3) / 4; (t * 9) / 10]%float.

(** The inner [while] loop: the percentiles the cumulative weight has
    reached take the current value. *)
Fixpoint assign_reached (fuel : nat) (weights : list float)
    (cumulative_weight value : Z) (result : list Z)
    (next_percentile_index : nat) : list Z * nat :=
  match fuel with
  | O => (result, next_percentile_index)
  | S fuel' =>
      if (next_percentile_index <? NUM_GETBLOCKSTATS_PERCENTILES)%nat
         && (nth next_percentile_index weights 0
             <=? double_of_int64 cumulative_weight)%float
      then assign_reached fuel' weights cumulative_weight value
             (assign next_percentile_index value result)
             (S next_percentile_index)
      else (result, next_percentile_index)
  end.

(** The [for] loop over the sorted scores, with the state it carries:
    [result], [next_percentile_index] and [cumulative_weight]. *)
Fixpoint percentile_loop (weights : list float) (scores : list (Z * Z))
    (result : list Z) (next_percentile_index : nat)
    (cumulative_weight : Z) : list Z * nat :=
  match scores with
  | [] => (result, next_percentile_index)
  | element :: rest =>
      let cumulative_weight := wrap64 (cumulative_weight + snd element) in
      let '(result, next_percentile_index) :=
        assign_reached NUM_GETBLOCKSTATS_PERCENTILES weights
          cumulative_weight (fst element) result next_percentile_index in
      percentile_loop weights rest result next_percentile_index
        cumulative_weight
  end.

(** The last [for] loop: the remaining percentiles take the last value. *)
Fixpoint fill_from (count : nat) (i : nat) (value : Z) (result : list Z) :
    list Z :=
  match count with
  | O => result
  | S count' => fill_from count' (S i) value (assign i value result)
  end.

(** [CalculatePercentilesBySize]: the [result] array and the vector as the
    call leaves them. *)
Definition CalculatePercentilesBySize
    (result : list Z) (scores : list (Z * Z)) (total_size : Z) :
    list Z * list (Z * Z) :=
  match scores with
  | [] => (result, scores)
  | _ =>
      let scores := std_sort pair_leb scores in
      let weights := percentile_weights total_size in
      let '(result, next_percentile_index) :=
        percentile_loop weights scores result 0 0 in
      (fill_from (NUM_GETBLOCKSTATS_PERCENTILES - next_percentile_index)
         next_percentile_index (fst (last scores (0, 0))) result,
       scores)
  end.

(** ** Difficulty *)

(** The two [while] loops of [GetDifficulty]. *)
Fixpoint difficulty_scale_up (fuel : nat) (dDiff : float) (nShift : Z) :
    float * Z :=
  match fuel with
  | O => (dDiff, nShift)
  | S fuel' =>
      if nShift <? 29
      then difficulty_scale_up fuel' (dDiff * 256)%float (nShift + 1)
      else (dDiff, nShift)
  end.

Fixpoint difficulty_scale_down (fuel : nat) (dDiff : float) (nShift : Z) :
    float * Z :=
  match fuel with
  | O => (dDiff, nShift)
  | S fuel' =>
      if nShift >? 29
      then difficulty_scale_down fuel' (dDiff / 256)%float (nShift - 1)
      else (dDiff, nShift)
  end.

(** [GetDifficulty], on the [nBits] of the block index.  [nShift] is a
    byte, so that 256 turns are enough for either loop. *)
Definition GetDifficulty (nBits : Z) : float :=
  let nShift := Z.land (Z.shiftr nBits 24) 255 in
  let dDiff :=
    (double_of_int64 65535 / double_of_int64 (Z.land nBits 16777215))%float in
  let '(dDiff, nShift) := difficulty_scale_up 256 dDiff nShift in
  let '(dDiff, nShift) := difficulty_scale_down 256 dDiff nShift in
  dDiff.

(** ** Example inputs *)

(** Scores of the block statistics. *)
Definition example_scores : list Z := [4; 1; 3; 2].

Definition example_feerates : list (Z * Z) :=
  [(30, 10); (10, 10); (20, 10); (40, 10); (50, 60)].

(** A compact target whose mantissa is zero. *)
Definition example_nBits_zero_mantissa : Z := 486539264.

(** The compact target with exponent byte [e] and mantissa [m]. *)
Definition compact_nBits (e m : Z) : Z := e * 16777216 + m.

(** ** Properties of the Object container *)

Lemma locate_from_Some (key : string) (o : Object) :
  forall base r,
    Obj.locate_from base key o = Some r ->
    exists pos,
      r = ref_entry (base + pos) /\ first_match o key pos.
Proof.
  induction o as [|[k x] rest IH]; intros base r H; simpl in H.
  - discriminate.
  - destruct (String.eqb k key) eqn:E.
    + apply String.eqb_eq in E. subst k. inversion H; subst.
      exists 0%nat. split; [f_equal; lia|]. split.
      * exists x. reflexivity.
      * intros earlier entry Hlt. lia.
    + apply String.eqb_neq in E.
      destruct (IH _ _ H) as (pos & -> & (value & Hv) & Hmin).
      exists (S pos). split; [f_equal; lia|]. split.
      * exists value. exact Hv.
      * intros [|earlier] entry Hlt Hnth; simpl in Hnth.
        -- inversion Hnth; subst. exact E.
        -- apply (Hmin earlier); [lia | exact Hnth].
Qed.

Lemma locate_from_None (key : string) (o : Object) :
  forall base, Obj.locate_from base key o = None <-> absent o key.
Proof.
  induction o as [|[k x] rest IH]; intros base; simpl.
  - split; [intros _ entry [] | reflexivity].
  - destruct (String.eqb k key) eqn:E.
    + apply String.eqb_eq in E. split; [discriminate|].
      intros Habs. exfalso. apply (Habs (k, x)); [left; reflexivity | exact E].
    + apply String.eqb_neq in E. rewrite IH. split.
      * intros Habs entry [<- | Hin]; [exact E | apply Habs; exact Hin].
      * intros Habs entry Hin. apply Habs. right. exact Hin.
Qed.

Lemma first_match_unique (o : Object) (key : string) (p q : nat) :
  first_match o key p -> first_match o key q -> p = q.
Proof.
  intros [[vp Hp] Hminp] [[vq Hq] Hminq].
  destruct (Nat.lt_trichotomy p q) as [Hlt | [Heq | Hgt]]; [| exact Heq |].
  - exfalso. apply (Hminq p (key, vp) Hlt Hp). reflexivity.
  - exfalso. apply (Hminp q (key, vq) Hgt Hq). reflexivity.
Qed.

Lemma first_match_not_absent (o : Object) (key : string) (pos : nat) :
  first_match o key pos -> ~ absent o key.
Proof.
  intros [[value Hv] _] Habs.
  apply (Habs (key, value)); [eapply nth_error_In; exact Hv | reflexivity].
Qed.

Lemma locate_first_match (o : Object) (key : string) (pos : nat) :
  first_match o key pos -> Obj.locate key o = Some (ref_entry pos).
Proof.
  intros Hfm. unfold Obj.locate.
  destruct (Obj.locate_from 0 key o) as [r|] eqn:E.
  - destruct (locate_from_Some _ _ _ _ E) as (q & -> & Hq).
    rewrite (first_match_unique _ _ _ _ Hfm Hq). reflexivity.
  - apply locate_from_None in E.
    exfalso. exact (first_match_not_absent _ _ _ Hfm E).
Qed.

(** The two outcomes of the scan, with what [locate] and [operator[]] give
    in each. *)
Lemma object_lookup_cases (o : Object) (key : string) :
  (exists pos,
      first_match o key pos
      /\ Obj.locate key o = Some (ref_entry pos)
      /\ Obj.index_key o key = ref_entry pos)
  \/ (absent o key
      /\ Obj.locate key o = None
      /\ Obj.index_key o key = ref_NullUniValue).
Proof.
  unfold Obj.index_key, Obj.locate.
  destruct (Obj.locate_from 0 key o) as [r|] eqn:E.
  - left. destruct (locate_from_Some _ _ _ _ E) as (pos & -> & Hfm).
    exists pos. repeat split; try apply Hfm.
  - right. apply locate_from_None in E. repeat split. exact E.
Qed.

(** C1: the non-throwing lookups by key of an Object, [locate] and
    [operator[]], designate the value of the first entry, in insertion order,
    whose key is the argument, so that an earlier duplicate shadows a later
    one; when no entry has the key, [locate] gives the null pointer and
    [operator[]] the shared Null sentinel. *)
Theorem object_lookup_first_match (o : Object) (key : string) :
  (exists pos value,
      nth_error o pos = Some (key, value)
      /\ (forall earlier entry,
            (earlier < pos)%nat -> nth_error o earlier = Some entry ->
            fst entry <> key)
      /\ Obj.locate key o = Some (ref_entry pos)
      /\ Obj.index_key o key = ref_entry pos)
  \/ ((forall entry, In entry o -> fst entry <> key)
      /\ Obj.locate key o = None
      /\ Obj.index_key o key = ref_NullUniValue).
Proof.
  destruct (object_lookup_cases o key)
    as [(pos & [[value Hv] Hmin] & Hl & Hi) | (Habs & Hl & Hi)].
  - left. exists pos, value. repeat split; assumption.
  - right. repeat split; assumption.
Qed.

(** The Object of the specification's example: the key "a" twice. *)
Example object_lookup_duplicate_key :
  Obj.locate "a" example_object = Some (ref_entry 0%nat)
  /\ Obj.index_key example_object "a" = ref_entry 0%nat
  /\ deref (setObject_from example_object NullUniValue) (ref_entry 0%nat)
     = Some (example_number "1")
  /\ Obj.index_key example_object "c" = ref_NullUniValue.
Proof. repeat split. Qed.

(** ** Throwing accessors *)

Lemma append_assoc (a b c : string) : (a ++ b) ++ c = a ++ (b ++ c).
Proof. induction a as [|ch a IH]; simpl; [reflexivity | now rewrite IH]. Qed.

Lemma append_nil_r (a : string) : a ++ "" = a.
Proof. induction a as [|ch a IH]; simpl; [reflexivity | now rewrite IH]. Qed.

Lemma contains_here (pre needle post : string) :
  contains (pre ++ needle ++ post) needle.
Proof. exists pre, post. reflexivity. Qed.

Lemma contains_end (pre needle : string) : contains (pre ++ needle) needle.
Proof. exists pre, "". now rewrite append_nil_r. Qed.

Lemma contains_last (pre a b needle : string) :
  contains (pre ++ a ++ b ++ needle) needle.
Proof.
  exists (pre ++ a ++ b), "".
  now rewrite append_nil_r, !append_assoc.
Qed.

Lemma Obj_at_key_lookup (o : Object) (key : string) :
  key_lookup o key (Obj.at_key o key).
Proof.
  unfold key_lookup, Obj.at_key.
  destruct (object_lookup_cases o key)
    as [(pos & Hfm & -> & _) | (Habs & -> & _)].
  - left. exists pos. split; [exact Hfm | reflexivity].
  - right. split; [exact Habs|]. eexists. split; [reflexivity|].
    apply contains_end.
Qed.

Lemma Obj_at_index_lookup (o : Object) (i : size_type) :
  position_lookup (List.length o) i (ref_entry i) (Obj.at_index o i).
Proof.
  unfold position_lookup, Obj.at_index.
  destruct (i <? List.length o)%nat eqn:E.
  - apply Nat.ltb_lt in E. left. split; [exact E | reflexivity].
  - apply Nat.ltb_ge in E. right. split; [exact E|].
    eexists. split; [reflexivity|]. split.
    + apply contains_here.
    + apply contains_last.
Qed.

Lemma Arr_at_index_lookup (a : Array) (i : size_type) :
  position_lookup (List.length a) i (ref_value i) (Arr.at_index a i).
Proof.
  unfold position_lookup, Arr.at_index.
  destruct (i <? List.length a)%nat eqn:E.
  - apply Nat.ltb_lt in E. left. split; [exact E | reflexivity].
  - apply Nat.ltb_ge in E. right. split; [exact E|].
    eexists. split; [reflexivity|]. split.
    + apply contains_here.
    + apply contains_last.
Qed.

(** C6: [at] by a key that no entry of the Object has throws an
    out-of-range error whose message contains the key; [at] by an index that
    is not below the size of the Object or Array throws an out-of-range error
    whose message contains the index and the size. *)
Theorem container_at_out_of_range
    (o : Object) (a : Array) (key : string) (i j : size_type)
    (Hkey : absent o key)
    (Hi : (List.length o <= i)%nat)
    (Hj : (List.length a <= j)%nat) :
  (exists msg, Obj.at_key o key = Throw (out_of_range msg)
               /\ contains msg key)
  /\ (exists msg, Obj.at_index o i = Throw (out_of_range msg)
                  /\ contains msg (to_string i)
                  /\ contains msg (to_string (List.length o)))
  /\ (exists msg, Arr.at_index a j = Throw (out_of_range msg)
                  /\ contains msg (to_string j)
                  /\ contains msg (to_string (List.length a))).
Proof.
  split; [|split].
  - destruct (Obj_at_key_lookup o key) as [(pos & Hfm & _) | (_ & H)].
    + exfalso. exact (first_match_not_absent _ _ _ Hfm Hkey).
    + exact H.
  - destruct (Obj_at_index_lookup o i) as [(Hlt & _) | (_ & H)];
      [lia | exact H].
  - destruct (Arr_at_index_lookup a j) as [(Hlt & _) | (_ & H)];
      [lia | exact H].
Qed.

Lemma example_object_no_missing : absent example_object "missing".
Proof.
  intros entry Hin. simpl in Hin.
  destruct Hin as [<- | [<- | [<- | []]]]; simpl; discriminate.
Defined.

Lemma container_at_out_of_range_witness :
  absent example_object "missing"
  /\ (List.length example_object <= 5)%nat
  /\ (List.length example_array <= 5)%nat
  /\ Obj.at_key example_object "missing"
     = Throw (out_of_range "Key not found in JSON object: missing")
  /\ Arr.at_index example_array 5%nat
     = Throw (out_of_range "Index 5 out of range in JSON array of length 2")
  /\ exists msg, Arr.at_index example_array 5%nat = Throw (out_of_range msg)
                 /\ contains msg "5" /\ contains msg "2".
Proof.
  split; [exact example_object_no_missing|].
  split; [simpl; lia|]. split; [simpl; lia|].
  split; [reflexivity|]. split; [reflexivity|].
  apply (container_at_out_of_range
           example_object example_array "missing" 5%nat 5%nat).
  - exact example_object_no_missing.
  - simpl; lia.
  - simpl; lia.
Defined.




Example value_at_key_on_number :
  at_key (example_number "7") "k"
  = Throw (domain_error
             "Cannot look up keys in JSON number, expected object with key: k").
Proof. reflexivity. Qed.

Example value_at_index_on_null :
  at_index NullUniValue 3%nat
  = Throw (domain_error
             "Cannot look up indices in JSON null, expected array or object larger than 3 elements").
Proof. reflexivity. Qed.

(** ** Non-throwing accessors *)

Lemma locate_none_or_entry (o : Object) (key : string) :
  (Obj.locate key o = None /\ absent o key)
  \/ (exists pos value,
        Obj.locate key o = Some (ref_entry pos)
        /\ nth_error o pos = Some (key, value)).
Proof.
  destruct (object_lookup_cases o key)
    as [(pos & [[value Hv] _] & Hl & _) | (Habs & Hl & _)].
  - right. exists pos, value. split; assumption.
  - left. split; assumption.
Qed.

Lemma nth_error_below {A : Type} (l : list A) (i : nat) :
  (i < List.length l)%nat -> exists x, nth_error l i = Some x.
Proof.
  intros Hlt. destruct (nth_error l i) as [x|] eqn:E.
  - exists x. reflexivity.
  - apply nth_error_None in E. lia.
Qed.

Lemma position_designates {A B : Type} (f : A -> B) (l : list A) (i : nat) :
  (i < List.length l)%nat -> exists x, option_map f (nth_error l i) = Some x.
Proof.
  intros Hlt. destruct (nth_error_below l i Hlt) as [x Hx].
  exists (f x). now rewrite Hx.
Qed.

(** Every reference a non-throwing accessor returns designates a value:
    the sentinel or an element that exists. *)
Lemma nonthrowing_accessors_designate
    (v : UniValue) (key : string) (i : size_type) :
  (exists x, deref v (index_key v key) = Some x)
  /\ (exists x, deref v (index v i) = Some x)
  /\ (exists x, deref v (front v) = Some x)
  /\ (exists x, deref v (back v) = Some x).
Proof.
  assert (Hnull : exists x, deref v ref_NullUniValue = Some x)
    by (eexists; reflexivity).
  repeat split.
  - unfold index_key, locate.
    destruct (locate_none_or_entry (entries v) key)
      as [[-> _] | (pos & value & -> & Hv)]; [exact Hnull|].
    exists value. simpl. now rewrite Hv.
  - unfold index, Obj.index, Arr.index.
    destruct (typ v); try exact Hnull.
    + destruct (i <? List.length (entries v))%nat eqn:E; [|exact Hnull].
      apply Nat.ltb_lt in E. now apply position_designates.
    + destruct (i <? List.length (values v))%nat eqn:E; [|exact Hnull].
      apply Nat.ltb_lt in E. now apply nth_error_below.
  - unfold front, Obj.front, Arr.front.
    destruct (typ v); try exact Hnull.
    + destruct (Nat.eqb (List.length (entries v)) 0) eqn:E; [exact Hnull|].
      apply Nat.eqb_neq in E. apply position_designates. lia.
    + destruct (Nat.eqb (List.length (values v)) 0) eqn:E; [exact Hnull|].
      apply Nat.eqb_neq in E. apply nth_error_below. lia.
  - unfold back, Obj.back, Arr.back.
    destruct (typ v); try exact Hnull.
    + destruct (Nat.eqb (List.length (entries v)) 0) eqn:E; [exact Hnull|].
      apply Nat.eqb_neq in E. apply position_designates. lia.
    + destruct (Nat.eqb (List.length (values v)) 0) eqn:E; [exact Hnull|].
      apply Nat.eqb_neq in E. apply nth_error_below. lia.
Qed.

(** C8: on a value whose Object member is empty unless its tag is Object,
    the non-throwing accessors return the Null sentinel exactly in the cases
    of failure: [v[key]] when the tag is not Object or no entry has the key,
    [v[index]] when the tag is neither Object nor Array or the index is not
    below the size of the active container, [front] and [back] when the tag
    is neither Object nor Array or the active container is empty; whatever
    they return designates a value. *)
Theorem nonthrowing_accessors_sentinel
    (v : UniValue) (key : string) (i : size_type)
    (Hinv : typ v <> VOBJ -> entries v = []) :
  (index_key v key = ref_NullUniValue
   <-> typ v <> VOBJ \/ absent (entries v) key)
  /\ (index v i = ref_NullUniValue
      <-> (typ v <> VOBJ /\ typ v <> VARR) \/ (active_size v <= i)%nat)
  /\ (front v = ref_NullUniValue
      <-> (typ v <> VOBJ /\ typ v <> VARR) \/ active_size v = 0%nat)
  /\ (back v = ref_NullUniValue
      <-> (typ v <> VOBJ /\ typ v <> VARR) \/ active_size v = 0%nat)
  /\ (exists x, deref v (index_key v key) = Some x)
  /\ (exists x, deref v (index v i) = Some x)
  /\ (exists x, deref v (front v) = Some x)
  /\ (exists x, deref v (back v) = Some x).
Proof.
  split; [|split; [|split; [|split]]];
    [ | | | | exact (nonthrowing_accessors_designate v key i)].
  - unfold index_key, locate.
    destruct (locate_none_or_entry (entries v) key)
      as [[-> Habs] | (pos & value & -> & Hv)].
    + split; [intros _; right; exact Habs | reflexivity].
    + split; [discriminate|]. intros [Ht | Habs]; exfalso.
      * rewrite (Hinv Ht) in Hv. destruct pos; discriminate.
      * apply (Habs (key, value)); [eapply nth_error_In; exact Hv|].
        reflexivity.
  - unfold index, active_size, Obj.index, Arr.index.
    destruct (typ v) eqn:Et;
      try (split; [intros _; left; split; discriminate | reflexivity]).
    + destruct (i <? List.length (entries v))%nat eqn:E.
      * apply Nat.ltb_lt in E. split; [discriminate|].
        intros [[Ht _] | Hle]; [congruence | lia].
      * apply Nat.ltb_ge in E. split; [intros _; right; exact E|reflexivity].
    + destruct (i <? List.length (values v))%nat eqn:E.
      * apply Nat.ltb_lt in E. split; [discriminate|].
        intros [[_ Ht] | Hle]; [congruence | lia].
      * apply Nat.ltb_ge in E. split; [intros _; right; exact E|reflexivity].
  - unfold front, active_size, Obj.front, Arr.front.
    destruct (typ v) eqn:Et;
      try (split; [intros _; left; split; discriminate | reflexivity]).
    + destruct (entries v) as [|e rest]; simpl.
      * split; [intros _; right; reflexivity | reflexivity].
      * split; [discriminate|]. intros [[Ht _] | Hz]; [congruence | lia].
    + destruct (values v) as [|e rest]; simpl.
      * split; [intros _; right; reflexivity | reflexivity].
      * split; [discriminate|]. intros [[_ Ht] | Hz]; [congruence | lia].
  - unfold back, active_size, Obj.back, Arr.back.
    destruct (typ v) eqn:Et;
      try (split; [intros _; left; split; discriminate | reflexivity]).
    + destruct (entries v) as [|e rest]; simpl.
      * split; [intros _; right; reflexivity | reflexivity].
      * split; [discriminate|]. intros [[Ht _] | Hz]; [congruence | lia].
    + destruct (values v) as [|e rest]; simpl.
      * split; [intros _; right; reflexivity | reflexivity].
      * split; [discriminate|]. intros [[_ Ht] | Hz]; [congruence | lia].
Qed.

Lemma nonthrowing_accessors_sentinel_witness :
  (typ (example_number "7") <> VOBJ -> entries (example_number "7") = [])
  /\ index_key (example_number "7") "a" = ref_NullUniValue
  /\ index (example_number "7") 0%nat = ref_NullUniValue
  /\ front (example_number "7") = ref_NullUniValue
  /\ back (example_number "7") = ref_NullUniValue.
Proof.
  split; [intros _; reflexivity|].
  destruct (nonthrowing_accessors_sentinel
              (example_number "7") "a" 0%nat (fun _ => eq_refl))
    as (Hkey & Hidx & Hfront & Hback & _).
  split; [apply Hkey; left; discriminate|].
  split; [apply Hidx; left; split; discriminate|].
  split; [apply Hfront; left; split; discriminate|].
  apply Hback; left; split; discriminate.
Defined.

Example index_out_of_bounds_is_sentinel :
  index (setArray_from example_array NullUniValue) 99%nat = ref_NullUniValue
  /\ index_key (setObject_from example_object NullUniValue) "missing"
     = ref_NullUniValue
  /\ front (setObject NullUniValue) = ref_NullUniValue
  /\ back (setArray NullUniValue) = ref_NullUniValue.
Proof. repeat split. Qed.

(** ** The two positional access paths *)

(** C10: on a value whose tag is Object or Array and at an index below the
    size of the active container, [at] returns what [operator[]] returns,
    and this reference designates the element at the index. *)
Theorem at_index_agrees_with_index
    (v : UniValue) (i : size_type)
    (Htag : typ v = VOBJ \/ typ v = VARR)
    (Hi : (i < active_size v)%nat) :
  at_index v i = Return (index v i)
  /\ deref v (index v i) = active_element v i
  /\ exists element, active_element v i = Some element.
Proof.
  unfold at_index, index, active_element, active_size in *.
  destruct Htag as [Ht | Ht]; rewrite Ht in *.
  - unfold Obj.at_index, Obj.index.
    apply Nat.ltb_lt in Hi. rewrite Hi. apply Nat.ltb_lt in Hi.
    split; [reflexivity|]. split; [reflexivity|].
    now apply position_designates.
  - unfold Arr.at_index, Arr.index.
    apply Nat.ltb_lt in Hi. rewrite Hi. apply Nat.ltb_lt in Hi.
    split; [reflexivity|]. split; [reflexivity|].
    now apply nth_error_below.
Qed.

Lemma at_index_agrees_with_index_witness :
  (typ (setArray_from example_array NullUniValue) = VOBJ
   \/ typ (setArray_from example_array NullUniValue) = VARR)
  /\ (1 < active_size (setArray_from example_array NullUniValue))%nat
  /\ at_index (setArray_from example_array NullUniValue) 1%nat
     = Return (index (setArray_from example_array NullUniValue) 1%nat)
  /\ deref (setArray_from example_array NullUniValue)
       (index (setArray_from example_array NullUniValue) 1%nat)
     = Some (example_number "20").
Proof.
  split; [right; reflexivity|]. split; [unfold active_size; simpl; lia|].
  destruct (at_index_agrees_with_index
              (setArray_from example_array NullUniValue) 1%nat
              (or_intror eq_refl)) as (Hat & Hderef & _).
  - unfold active_size; simpl; lia.
  - split; [exact Hat | reflexivity].
Defined.

(** ** Equality *)

Lemma VType_eqb_eq (a b : VType) : VType_eqb a b = true <-> a = b.
Proof. destruct a, b; simpl; split; intros H; congruence. Qed.

Lemma vector_eqb_Forall2 {A : Type} (f : A -> A -> bool) (l1 l2 : list A) :
  vector_eqb f l1 l2 = true <-> Forall2 (fun x y => f x y = true) l1 l2.
Proof.
  revert l2. induction l1 as [|x r1 IH]; intros [|y r2]; simpl.
  - split; [constructor | reflexivity].
  - split; [discriminate | intros H; inversion H].
  - split; [discriminate | intros H; inversion H].
  - rewrite andb_true_iff, IH. split.
    + intros [Hxy Hr]. constructor; assumption.
    + intros H. inversion H; subst. split; assumption.
Qed.

Lemma uv_eqb_unfold (a b : UniValue) :
  uv_eqb a b =
  if negb (VType_eqb (typ a) (typ b)) then false
  else match typ a with
       | VOBJ =>
           vector_eqb
             (fun p q => String.eqb (fst p) (fst q) && uv_eqb (snd p) (snd q))
             (entries a) (entries b)
       | VARR => vector_eqb uv_eqb (values a) (values b)
       | VNUM | VSTR => String.eqb (val a) (val b)
       | VNULL | VFALSE | VTRUE => true
       end.
Proof. destruct a; reflexivity. Qed.

(** C5: [a == b] holds exactly when the tags are equal and, for Number and
    String, the texts are equal character by character; for Object, the
    entries are pairwise equal in order, key with key and value with value;
    for Array, the elements are pairwise equal in order; Null, True and
    False need the tag only.  Values of different tags are never equal. *)
Theorem equality_by_tag_and_payload (a b : UniValue) :
  uv_eqb a b = true <->
  typ a = typ b
  /\ match typ a with
     | VNUM | VSTR => val a = val b
     | VOBJ =>
         Forall2
           (fun p q => fst p = fst q /\ uv_eqb (snd p) (snd q) = true)
           (entries a) (entries b)
     | VARR =>
         Forall2 (fun x y => uv_eqb x y = true) (values a) (values b)
     | VNULL | VFALSE | VTRUE => True
     end.
Proof.
  rewrite uv_eqb_unfold.
  destruct (VType_eqb (typ a) (typ b)) eqn:Et; simpl.
  - apply VType_eqb_eq in Et.
    destruct (typ a) eqn:Ea.
    + tauto.
    + tauto.
    + tauto.
    + rewrite vector_eqb_Forall2. split.
      * intros H. split; [exact Et|].
        eapply Forall2_impl; [|exact H].
        intros p q Hpq. apply andb_true_iff in Hpq.
        destruct Hpq as [Hk Hv]. apply String.eqb_eq in Hk. tauto.
      * intros [_ H]. eapply Forall2_impl; [|exact H].
        intros p q [Hk Hv]. apply andb_true_iff.
        split; [apply String.eqb_eq; exact Hk | exact Hv].
    + rewrite vector_eqb_Forall2. tauto.
    + rewrite String.eqb_eq. tauto.
    + rewrite String.eqb_eq. tauto.
  - split; [discriminate|]. intros [Heq _].
    apply VType_eqb_eq in Heq. congruence.
Qed.

(** No numeric normalisation: "1.50" and "1.5" are different Numbers. *)
Example equality_is_textual :
  uv_eqb (example_number "1.50") (example_number "1.5") = false
  /\ uv_eqb (example_number "1.5") (example_number "1.5") = true.
Proof. split; reflexivity. Qed.

(** Same entries in the same order are equal; reordered they are not. *)
Example equality_is_order_sensitive :
  uv_eqb (setObject_from example_object NullUniValue)
         (setObject_from example_object NullUniValue) = true
  /\ uv_eqb (setObject_from example_object NullUniValue)
            (setObject_from (rev example_object) NullUniValue) = false
  /\ uv_eqb (setArray_from example_array NullUniValue)
            (setArray_from (rev example_array) NullUniValue) = false.
Proof. repeat split. Qed.

(** A String and a Number of the same text differ, and so do True and
    False. *)
Example equality_needs_same_tag :
  uv_eqb (setStr "1" NullUniValue) (example_number "1") = false
  /\ uv_eqb (setBool true NullUniValue) (setBool false NullUniValue) = false
  /\ uv_eqb (setBool true NullUniValue) (setBool true NullUniValue) = true.
Proof. repeat split. Qed.

(** ** Type names of a mask *)

Lemma uvTypeName_not_empty (t : VType) : uvTypeName t <> "".
Proof. destruct t; discriminate. Qed.

Lemma join_onto_nonempty (names : list string) :
  forall result,
    result <> "" ->
    join_onto result names =
    match names with
    | [] => result
    | _ => result ++ "/" ++ String.concat "/" names
    end.
Proof.
  induction names as [|name rest IH]; intros result Hne; simpl.
  - reflexivity.
  - apply String.eqb_neq in Hne. rewrite Hne.
    rewrite IH.
    + destruct rest as [|name' rest']; rewrite !append_assoc; reflexivity.
    + destruct result; [discriminate | discriminate].
Qed.

Lemma join_onto_concat (names : list string) :
  Forall (fun name => name <> "") names ->
  join_onto "" names = String.concat "/" names.
Proof.
  intros Hall. destruct names as [|name rest]; simpl; [reflexivity|].
  inversion Hall; subst.
  rewrite join_onto_nonempty by assumption.
  destruct rest; reflexivity.
Qed.

Lemma land_pow2_nonzero (t k : Z) :
  0 <= k -> negb (Z.land t (2 ^ k) =? 0) = Z.testbit t k.
Proof.
  intros Hk. destruct (Z.testbit t k) eqn:Eb.
  - apply negb_true_iff, Z.eqb_neq. intros Hz.
    assert (Hbit : Z.testbit (Z.land t (2 ^ k)) k = true)
      by (rewrite Z.land_spec, Eb, Z.pow2_bits_true by exact Hk; reflexivity).
    rewrite Hz, Z.bits_0 in Hbit. discriminate.
  - apply negb_false_iff, Z.eqb_eq. apply Z.bits_inj'. intros m Hm.
    rewrite Z.land_spec, Z.bits_0.
    destruct (Z.eq_dec k m) as [<- | Hne].
    + rewrite Eb. reflexivity.
    + rewrite (Z.pow2_bits_false k m) by assumption. apply andb_false_r.
Qed.

Section TypeMaskProperties.

(** The enumerators of [VType] are flags: each one is a single bit, and no
    two tags share a bit. *)
Variable VType_value : VType -> Z.
Variable VType_bit : VType -> Z.
Hypothesis VType_single_bit : forall t, VType_value t = 2 ^ VType_bit t.
Hypothesis VType_bit_nonneg : forall t, 0 <= VType_bit t.
Hypothesis VType_bit_distinct :
  forall a b, VType_bit a = VType_bit b -> a = b.

Lemma append_step_join_onto (t : Z) (type : VType) (result : string) :
  appendTypeNameIfTypeIncludes VType_value t type result =
  join_onto result
    (if Z.testbit t (VType_bit type) then [uvTypeName type] else []).
Proof.
  unfold appendTypeNameIfTypeIncludes.
  rewrite VType_single_bit, land_pow2_nonzero by apply VType_bit_nonneg.
  destruct (Z.testbit t (VType_bit type)); simpl; [|reflexivity].
  destruct (String.eqb result "") eqn:E; simpl; [|reflexivity].
  apply String.eqb_eq in E. subst. reflexivity.
Qed.

Lemma join_onto_app (names1 names2 : list string) :
  forall result,
    join_onto (join_onto result names1) names2
    = join_onto result (names1 ++ names2).
Proof.
  induction names1 as [|n r IH]; intros result; simpl; [reflexivity|].
  apply IH.
Qed.

Lemma uvTypeName_mask_join_onto (t : Z) :
  uvTypeName_mask VType_value t
  = join_onto "" (names_of_set_bits VType_bit t).
Proof.
  unfold uvTypeName_mask, names_of_set_bits, canonical_order.
  rewrite !append_step_join_onto, !join_onto_app. f_equal.
  simpl filter.
  destruct (Z.testbit t (VType_bit VNULL)), (Z.testbit t (VType_bit VFALSE)),
    (Z.testbit t (VType_bit VTRUE)), (Z.testbit t (VType_bit VOBJ)),
    (Z.testbit t (VType_bit VARR)), (Z.testbit t (VType_bit VNUM)),
    (Z.testbit t (VType_bit VSTR)); reflexivity.
Qed.

Lemma names_of_set_bits_not_empty (t : Z) :
  Forall (fun name => name <> "") (names_of_set_bits VType_bit t).
Proof.
  unfold names_of_set_bits. apply Forall_map, Forall_forall.
  intros type _. apply uvTypeName_not_empty.
Qed.

Lemma testbit_two_flags (a b type : VType) :
  Z.testbit (Z.lor (VType_value a) (VType_value b)) (VType_bit type) = true
  <-> type = a \/ type = b.
Proof.
  rewrite Z.lor_spec, !VType_single_bit, orb_true_iff.
  rewrite !Z.pow2_bits_eqb by apply VType_bit_nonneg.
  rewrite !Z.eqb_eq. split.
  - intros [H | H]; apply VType_bit_distinct in H; auto.
  - intros [-> | ->]; auto.
Qed.

Lemma testbit_two_flags_other (a b type : VType) :
  type <> a -> type <> b ->
  Z.testbit (Z.lor (VType_value a) (VType_value b)) (VType_bit type) = false.
Proof.
  intros Ha Hb. apply not_true_is_false. rewrite testbit_two_flags. tauto.
Qed.

(** C9: [uvTypeName] of a mask is the names of the tags whose bit is set in
    the mask, taken in the canonical order Null, False, True, Object, Array,
    Number, String and joined with slashes; the mask of Object and Array
    gives "object/array", the empty mask the empty string. *)
Theorem uvTypeName_mask_joined (t : Z) :
  uvTypeName_mask VType_value t
  = String.concat "/" (names_of_set_bits VType_bit t)
  /\ uvTypeName_mask VType_value (Z.lor (VType_value VOBJ) (VType_value VARR))
     = "object/array"
  /\ uvTypeName_mask VType_value 0 = "".
Proof.
  assert (Hjoin : forall m,
             uvTypeName_mask VType_value m
             = String.concat "/" (names_of_set_bits VType_bit m)).
  { intros m. rewrite uvTypeName_mask_join_onto.
    apply join_onto_concat, names_of_set_bits_not_empty. }
  split; [apply Hjoin|]. split.
  - rewrite Hjoin. unfold names_of_set_bits, canonical_order. simpl filter.
    rewrite (proj2 (testbit_two_flags VOBJ VARR VOBJ)) by auto.
    rewrite (proj2 (testbit_two_flags VOBJ VARR VARR)) by auto.
    rewrite !testbit_two_flags_other by discriminate.
    reflexivity.
  - rewrite Hjoin. unfold names_of_set_bits, canonical_order. simpl filter.
    rewrite !Z.bits_0. reflexivity.
Qed.

End TypeMaskProperties.

Lemma flag_value_single_bit (t : VType) : flag_value t = 2 ^ flag_bit t.
Proof. destruct t; reflexivity. Defined.

Lemma flag_bit_nonneg (t : VType) : 0 <= flag_bit t.
Proof. destruct t; simpl; lia. Defined.

Lemma flag_bit_distinct (a b : VType) : flag_bit a = flag_bit b -> a = b.
Proof. destruct a, b; simpl; intros H; first [reflexivity | discriminate H]. Defined.

Lemma uvTypeName_mask_joined_witness :
  uvTypeName_mask flag_value 24 = "object/array"
  /\ uvTypeName_mask flag_value
       (Z.lor (flag_value VOBJ) (flag_value VARR)) = "object/array"
  /\ uvTypeName_mask flag_value 0 = ""
  /\ uvTypeName_mask flag_value 97
     = String.concat "/" (names_of_set_bits flag_bit 97).
Proof.
  destruct (uvTypeName_mask_joined flag_value flag_bit
              flag_value_single_bit flag_bit_nonneg flag_bit_distinct 97)
    as (Hjoin & Hpair & Hzero).
  split; [reflexivity|]. split; [exact Hpair|]. split; [exact Hzero|].
  exact Hjoin.
Defined.

Example uvTypeName_mask_examples :
  uvTypeName_mask flag_value 127
  = "null/false/true/object/array/number/string"
  /\ uvTypeName_mask flag_value 97 = "null/number/string"
  /\ uvTypeName_mask flag_value 8 = "object"
  /\ uvTypeName_mask flag_value 128 = "".
Proof. repeat split. Qed.

(** ** Decimal output *)

Lemma digit_cases (d : Z) :
  0 <= d <= 9 ->
  d = 0 \/ d = 1 \/ d = 2 \/ d = 3 \/ d = 4
  \/ d = 5 \/ d = 6 \/ d = 7 \/ d = 8 \/ d = 9.
Proof. lia. Qed.

Lemma digit_char_is_digit (d : Z) :
  0 <= d <= 9 ->
  is_digit (digit_char d) = true
  /\ digit_value (digit_char d) = d
  /\ digit_char d <> "-"%char
  /\ (digit_char d = "0"%char -> d = 0).
Proof.
  intros Hd.
  destruct (digit_cases d Hd)
    as [-> | [-> | [-> | [-> | [-> | [-> | [-> | [-> | [-> | ->]]]]]]]]];
    repeat split; try discriminate; reflexivity.
Qed.

Lemma mod10_digit (n : Z) : 0 <= n mod 10 <= 9.
Proof. pose proof (Z.mod_pos_bound n 10). lia. Qed.

Lemma pow10_succ (k : nat) : 10 ^ Z.of_nat (S k) = 10 * 10 ^ Z.of_nat k.
Proof. rewrite Nat2Z.inj_succ, Z.pow_succ_r by lia. reflexivity. Qed.

Lemma div10_below (n : Z) (k : nat) :
  0 <= n < 10 ^ Z.of_nat (S k) -> 0 <= n / 10 < 10 ^ Z.of_nat k.
Proof.
  rewrite pow10_succ. intros [Hlo Hhi]. split.
  - apply Z.div_pos; lia.
  - apply Z.div_lt_upper_bound; lia.
Qed.

Lemma utoa_fuel_S (fuel : nat) (n : Z) (acc : string) :
  utoa_fuel (S fuel) n acc =
  if n <? 10 then String (digit_char (n mod 10)) acc
  else utoa_fuel fuel (n / 10) (String (digit_char (n mod 10)) acc).
Proof. reflexivity. Qed.

(** Reading what [utoa_fuel] wrote gives the number back. *)
Lemma read_utoa_fuel (fuel : nat) :
  forall n acc,
    0 <= n < 10 ^ Z.of_nat (S fuel) ->
    read_digits (utoa_fuel (S fuel) n acc) 0 = read_digits acc n.
Proof.
  induction fuel as [|fuel IH]; intros n acc Hn;
    rewrite utoa_fuel_S; destruct (n <? 10) eqn:E.
  - apply Z.ltb_lt in E. cbn [read_digits].
    destruct (digit_char_is_digit (n mod 10) (mod10_digit n))
      as (-> & -> & _). rewrite Z.mod_small by lia. reflexivity.
  - apply Z.ltb_ge in E. change (10 ^ Z.of_nat 1) with 10 in Hn. lia.
  - apply Z.ltb_lt in E. cbn [read_digits].
    destruct (digit_char_is_digit (n mod 10) (mod10_digit n))
      as (-> & -> & _). rewrite Z.mod_small by lia. reflexivity.
  - rewrite IH by (apply div10_below; exact Hn).
    cbn [read_digits].
    destruct (digit_char_is_digit (n mod 10) (mod10_digit n))
      as (-> & -> & _).
    f_equal. rewrite (Z.div_mod n 10) at 3 by lia. reflexivity.
Qed.

(** [utoa_fuel] writes at least one digit and at most [k] of them when the
    number is below [10 ^ k]. *)
Lemma utoa_fuel_length (fuel : nat) :
  forall n acc k,
    0 <= n < 10 ^ Z.of_nat (S k) -> (k <= fuel)%nat ->
    (1 + String.length acc <= String.length (utoa_fuel (S fuel) n acc)
     <= S k + String.length acc)%nat.
Proof.
  induction fuel as [|fuel IH]; intros n acc k Hn Hk;
    rewrite utoa_fuel_S; destruct (n <? 10) eqn:E.
  - simpl. lia.
  - apply Z.ltb_ge in E. assert (k = 0%nat) as -> by lia.
    change (10 ^ Z.of_nat 1) with 10 in Hn. lia.
  - simpl. lia.
  - apply Z.ltb_ge in E. destruct k as [|k].
    + change (10 ^ Z.of_nat 1) with 10 in Hn. lia.
    + specialize (IH (n / 10) (String (digit_char (n mod 10)) acc) k
                     (div10_below _ _ Hn) ltac:(lia)).
      change (String.length (String (digit_char (n mod 10)) acc))
        with (S (String.length acc)) in IH.
      lia.
Qed.

(** The first character [utoa_fuel] writes is a digit, and it is the digit
    zero for the number zero only. *)
Lemma utoa_fuel_head (fuel : nat) :
  forall n acc,
    0 <= n < 10 ^ Z.of_nat (S fuel) ->
    exists d rest,
      utoa_fuel (S fuel) n acc = String (digit_char d) rest
      /\ 0 <= d <= 9
      /\ (d = 0 -> n = 0 /\ rest = acc).
Proof.
  induction fuel as [|fuel IH]; intros n acc Hn;
    rewrite utoa_fuel_S; destruct (n <? 10) eqn:E.
  - apply Z.ltb_lt in E. exists (n mod 10), acc.
    rewrite Z.mod_small by lia. repeat split; lia.
  - apply Z.ltb_ge in E. change (10 ^ Z.of_nat 1) with 10 in Hn. lia.
  - apply Z.ltb_lt in E. exists (n mod 10), acc.
    rewrite Z.mod_small by lia. repeat split; lia.
  - apply Z.ltb_ge in E.
    destruct (IH (n / 10) (String (digit_char (n mod 10)) acc)
                 (div10_below _ _ Hn)) as (d & rest & Heq & Hd & Hzero).
    exists d, rest. split; [exact Heq|]. split; [exact Hd|].
    intros Hd0. destruct (Hzero Hd0) as [Hdiv _].
    assert (1 <= n / 10) by (apply Z.div_le_lower_bound; lia). lia.
Qed.

Lemma pow2_le_pow10 (k : Z) : 0 <= k -> 2 ^ k <= 10 ^ k.
Proof. intros Hk. apply Z.pow_le_mono_l. lia. Qed.

(** The fuel [utoa] starts with is enough. *)
Lemma utoa_fuel_enough (n : Z) :
  0 <= n -> 0 <= n < 10 ^ Z.of_nat (S (Z.to_nat (Z.log2 n))).
Proof.
  intros Hn. split; [exact Hn|].
  pose proof (Z.log2_nonneg n) as Hlog.
  rewrite Nat2Z.inj_succ, Z2Nat.id by exact Hlog.
  destruct (Z.eq_dec n 0) as [-> | Hne].
  - simpl. lia.
  - pose proof (Z.log2_spec n ltac:(lia)) as [_ Hhi].
    pose proof (pow2_le_pow10 (Z.succ (Z.log2 n)) ltac:(lia)). lia.
Qed.

Lemma has_minus_head (c : ascii) (rest : string) :
  c <> "-"%char ->
  has_minus (String c rest) = false /\ digits_of (String c rest) = String c rest.
Proof.
  intros Hc.
  destruct c as [b0 b1 b2 b3 b4 b5 b6 b7].
  destruct b0, b1, b2, b3, b4, b5, b6, b7;
    first [ split; reflexivity | exfalso; apply Hc; reflexivity ].
Qed.

Lemma utoa_head (n : Z) :
  0 <= n ->
  exists d rest,
    utoa n = String (digit_char d) rest
    /\ 0 <= d <= 9
    /\ (d = 0 -> n = 0 /\ rest = "").
Proof.
  intros Hn. unfold utoa. apply utoa_fuel_head, utoa_fuel_enough, Hn.
Qed.

Lemma read_unsigned_utoa (n : Z) : 0 <= n -> read_unsigned (utoa n) = Some n.
Proof.
  intros Hn. destruct (utoa_head n Hn) as (d & rest & Heq & _).
  unfold read_unsigned. rewrite Heq, <- Heq. unfold utoa.
  rewrite read_utoa_fuel by (apply utoa_fuel_enough, Hn). reflexivity.
Qed.

Lemma utoa_no_leading_zero (n : Z) : 0 <= n -> no_leading_zero (utoa n).
Proof.
  intros Hn. destruct (utoa_head n Hn) as (d & rest & Heq & Hd & Hzero).
  destruct (Z.eq_dec d 0) as [-> | Hne].
  - left. destruct (Hzero eq_refl) as [_ ->]. exact Heq.
  - right. exists (digit_char d), rest. split; [exact Heq|].
    intros Hc. apply Hne. apply (digit_char_is_digit d Hd). exact Hc.
Qed.

Lemma utoa_no_minus (n : Z) :
  0 <= n -> has_minus (utoa n) = false /\ digits_of (utoa n) = utoa n.
Proof.
  intros Hn. destruct (utoa_head n Hn) as (d & rest & Heq & Hd & _).
  rewrite Heq. apply has_minus_head. apply (digit_char_is_digit d Hd).
Qed.

Lemma utoa_length (n : Z) (k : nat) :
  0 <= n < 10 ^ Z.of_nat (S k) ->
  (1 <= String.length (utoa n) <= S k)%nat.
Proof.
  intros [Hlo Hhi]. unfold utoa.
  set (fuel := Z.to_nat (Z.log2 n)).
  destruct (Nat.le_gt_cases k fuel) as [Hle | Hgt].
  - pose proof (utoa_fuel_length fuel n "" k (conj Hlo Hhi) Hle) as H.
    change (String.length "") with 0%nat in H. lia.
  - pose proof (utoa_fuel_length fuel n "" fuel
                  (utoa_fuel_enough n Hlo) (Nat.le_refl _)) as H.
    change (String.length "") with 0%nat in H. lia.
Qed.

Lemma itoa_nonneg (x : Z) : 0 <= x -> itoa x = utoa x.
Proof.
  intros Hx. unfold itoa.
  destruct (x <? 0) eqn:E; [apply Z.ltb_lt in E; lia | reflexivity].
Qed.

(** What [itoa] writes has a minus sign exactly for a negative number, no
    leading zero, and reads back as the number. *)
Lemma itoa_canonical (x : Z) :
  has_minus (itoa x) = (x <? 0)
  /\ no_leading_zero (digits_of (itoa x))
  /\ read_int (itoa x) = Some x.
Proof.
  unfold read_int, itoa. destruct (x <? 0) eqn:E.
  - apply Z.ltb_lt in E. cbn [has_minus digits_of].
    split; [reflexivity|]. split.
    + apply utoa_no_leading_zero. lia.
    + rewrite read_unsigned_utoa by lia. simpl. f_equal. lia.
  - apply Z.ltb_ge in E.
    destruct (utoa_no_minus x E) as [-> ->].
    split; [reflexivity|]. split.
    + apply utoa_no_leading_zero, E.
    + apply read_unsigned_utoa, E.
Qed.

Lemma itoa_length (x : Z) (k : nat) :
  - 10 ^ Z.of_nat (S k) < x < 10 ^ Z.of_nat (S k) ->
  (1 <= String.length (itoa x) <= S (S k))%nat.
Proof.
  intros Hx. unfold itoa. destruct (x <? 0) eqn:E.
  - apply Z.ltb_lt in E.
    pose proof (utoa_length (- x) k ltac:(lia)). simpl String.length. lia.
  - apply Z.ltb_ge in E.
    pose proof (utoa_length x k ltac:(lia)). lia.
Qed.

(** ** The decimal text of a number is the only canonical one *)

Lemma is_digit_value (c : ascii) :
  is_digit c = true -> 0 <= digit_value c <= 9 /\ c = digit_char (digit_value c).
Proof.
  unfold is_digit, digit_value, digit_char. intros H.
  apply andb_true_iff in H. destruct H as [Hlo Hhi].
  apply Nat.leb_le in Hlo. apply Nat.leb_le in Hhi.
  split; [lia|].
  replace (48 + Z.to_nat (Z.of_nat (nat_of_ascii c) - 48))%nat
    with (nat_of_ascii c) by lia.
  symmetry. apply ascii_nat_embedding.
Qed.

(** Two digit runs of the same length that read as the same number, from
    whatever accumulators, are the same run read from the same
    accumulator. *)
Lemma read_digits_same_length (s1 : string) :
  forall s2 a1 a2 n,
    String.length s1 = String.length s2 ->
    read_digits s1 a1 = Some n -> read_digits s2 a2 = Some n ->
    a1 = a2 /\ s1 = s2.
Proof.
  induction s1 as [|c1 r1 IH]; intros [|c2 r2] a1 a2 n Hlen H1 H2;
    simpl in Hlen; try discriminate.
  - cbn [read_digits] in H1, H2. split; [congruence | reflexivity].
  - cbn [read_digits] in H1, H2.
    destruct (is_digit c1) eqn:D1; [|discriminate].
    destruct (is_digit c2) eqn:D2; [|discriminate].
    destruct (is_digit_value c1 D1) as [B1 E1].
    destruct (is_digit_value c2 D2) as [B2 E2].
    destruct (IH r2 _ _ n ltac:(lia) H1 H2) as [Hacc ->].
    assert (digit_value c1 = digit_value c2) by lia.
    split; [lia|]. rewrite E1, E2. congruence.
Qed.

(** The number a digit run reads as lies between the accumulator shifted by
    the length of the run and the next accumulator shifted likewise. *)
Lemma read_digits_bounds (s : string) :
  forall a n,
    0 <= a -> read_digits s a = Some n ->
    a * 10 ^ Z.of_nat (String.length s) <= n
    < (a + 1) * 10 ^ Z.of_nat (String.length s).
Proof.
  induction s as [|c r IH]; intros a n Ha H; cbn [read_digits] in H.
  - inversion H; subst. simpl. lia.
  - destruct (is_digit c) eqn:D; [|discriminate].
    destruct (is_digit_value c D) as [B _].
    specialize (IH (10 * a + digit_value c) n ltac:(lia) H).
    cbn [String.length]. rewrite pow10_succ.
    assert (0 < 10 ^ Z.of_nat (String.length r)) by (apply Z.pow_pos_nonneg; lia).
    nia.
Qed.

Lemma pow10_lt_inj (j k : nat) :
  10 ^ Z.of_nat j < 10 ^ Z.of_nat (S k) -> (j <= k)%nat.
Proof.
  intros H. apply Z.pow_lt_mono_r_iff in H; lia.
Qed.

(** A canonical digit run of a positive number has as many digits as the
    number needs. *)
Lemma canonical_run_bounds (c : ascii) (rest : string) (n : Z) :
  c <> "0"%char ->
  read_digits (String c rest) 0 = Some n ->
  10 ^ Z.of_nat (String.length rest) <= n
  < 10 ^ Z.of_nat (S (String.length rest)).
Proof.
  intros Hc H. cbn [read_digits] in H.
  destruct (is_digit c) eqn:D; [|discriminate].
  destruct (is_digit_value c D) as [B E].
  assert (digit_value c <> 0)
    by (intros Hz; apply Hc; rewrite E, Hz; reflexivity).
  pose proof (read_digits_bounds rest (10 * 0 + digit_value c) n
                ltac:(lia) H) as Hb.
  rewrite pow10_succ.
  assert (0 < 10 ^ Z.of_nat (String.length rest)) by (apply Z.pow_pos_nonneg; lia).
  nia.
Qed.

Lemma utoa_unique (digits : string) (n : Z) :
  read_unsigned digits = Some n -> no_leading_zero digits -> digits = utoa n.
Proof.
  intros Hread [-> | (c & rest & -> & Hc)].
  - inversion Hread; subst. reflexivity.
  - unfold read_unsigned in Hread.
    pose proof (canonical_run_bounds c rest n Hc Hread) as Hb.
    assert (Hn : 0 <= n).
    { pose proof (Z.pow_nonneg 10 (Z.of_nat (String.length rest))). lia. }
    assert (Hpos : 0 < 10 ^ Z.of_nat (String.length rest))
      by (apply Z.pow_pos_nonneg; lia).
    pose proof (read_unsigned_utoa n Hn) as Hu.
    destruct (utoa_no_leading_zero n Hn) as [H0 | (c' & rest' & Heq & Hc')].
    + rewrite H0 in Hu. vm_compute in Hu. inversion Hu; subst. lia.
    + rewrite Heq in Hu |- *. unfold read_unsigned in Hu.
      pose proof (canonical_run_bounds c' rest' n Hc' Hu) as Hb'.
      assert (Hlen : String.length rest = String.length rest').
      { apply Nat.le_antisymm; apply pow10_lt_inj; lia. }
      apply (read_digits_same_length (String c rest) (String c' rest') 0 0 n);
        [cbn [String.length]; congruence | exact Hread | exact Hu].
Qed.

Lemma has_minus_true (s : string) :
  has_minus s = true -> s = String "-" (digits_of s).
Proof.
  destruct s as [|c rest]; [discriminate|].
  destruct c as [b0 b1 b2 b3 b4 b5 b6 b7].
  destruct b0, b1, b2, b3, b4, b5, b6, b7;
    first [ discriminate | reflexivity ].
Qed.

Lemma has_minus_false (s : string) : has_minus s = false -> digits_of s = s.
Proof.
  destruct s as [|c rest]; [reflexivity|].
  destruct c as [b0 b1 b2 b3 b4 b5 b6 b7].
  destruct b0, b1, b2, b3, b4, b5, b6, b7;
    first [ discriminate | reflexivity ].
Qed.

(** A text with the sign exactly for a negative number, no leading zero and
    the number as its reading is the text [itoa] writes. *)
Lemma itoa_unique (s : string) (x : Z) :
  has_minus s = (x <? 0) ->
  no_leading_zero (digits_of s) ->
  read_int s = Some x ->
  s = itoa x.
Proof.
  unfold read_int, itoa. intros Hsign Hzero Hread.
  rewrite Hsign in Hread. destruct (x <? 0) eqn:E.
  - rewrite (has_minus_true s Hsign). f_equal.
    apply utoa_unique; [|exact Hzero].
    destruct (read_unsigned (digits_of s)) as [n|]; [|discriminate].
    simpl in Hread. inversion Hread. f_equal. lia.
  - rewrite (has_minus_false s Hsign) in Hzero.
    apply utoa_unique; assumption.
Qed.

Lemma substring_all (s : string) :
  forall m, (String.length s <= m)%nat -> substring 0 m s = s.
Proof.
  induction s as [|c s IH]; intros m Hm.
  - destruct m; reflexivity.
  - destruct m as [|m]; simpl in Hm; [lia|].
    simpl. rewrite IH by lia. reflexivity.
Qed.

(** Every value of an argument type is a value of the 64-bit type its
    overload converts to. *)
Lemma in_range_64 (ty : IntegerType) (x : Z) :
  in_range ty x ->
  if converts_to_signed ty
  then - 9223372036854775808 <= x < 9223372036854775808
  else 0 <= x < 18446744073709551616.
Proof.
  destruct ty; unfold in_range; cbn [converts_to_signed bits];
    intros H;
    repeat match type of H with
           | context [2 ^ ?k] =>
               let p := eval vm_compute in (2 ^ k) in
               change (2 ^ k) with p in H
           | context [?a - 1] =>
               let p := eval vm_compute in (a - 1) in
               change (a - 1) with p in H
           end; lia.
Qed.

(** On a value of the 64-bit type the conversion fits the buffer, and
    [setInt64] stores it. *)
Lemma setInt64_stores (is_signed : bool) (x : Z) (v : UniValue) :
  (if is_signed
   then - 9223372036854775808 <= x < 9223372036854775808
   else 0 <= x < 18446744073709551616) ->
  setInt64 is_signed x v = mkUniValue VNUM (itoa x) [] [].
Proof.
  intros Hx.
  assert (Hlen : (1 <= String.length (itoa x) <= 20)%nat).
  { destruct is_signed.
    - apply (itoa_length x 18).
      change (10 ^ Z.of_nat 19) with 10000000000000000000. lia.
    - rewrite itoa_nonneg by lia. apply (utoa_length x 19).
      change (10 ^ Z.of_nat 20) with 100000000000000000000. lia. }
  assert (Hfull : (if is_signed then itoa x else utoa x) = itoa x).
  { destruct is_signed; [reflexivity|].
    symmetry. apply itoa_nonneg. lia. }
  unfold setInt64, snprintf, bufSize. rewrite Hfull.
  destruct ((Z.of_nat (String.length (itoa x)) <=? 0)
            || (Z.of_nat (String.length (itoa x)) >=? 21)) eqn:G.
  - apply orb_true_iff in G. destruct G as [G | G].
    + apply Z.leb_le in G. lia.
    + apply Z.geb_le in G. lia.
  - rewrite Nat2Z.id.
    rewrite (substring_all (itoa x) (Z.to_nat (21 - 1))) by
      (change (Z.to_nat (21 - 1)) with 20%nat; lia).
    rewrite substring_all by lia.
    reflexivity.
Qed.

(** C4: on every value of its argument type, each [setInt] overload sets
    the tag to Number and stores the canonical decimal text of the value: a
    minus sign exactly when the value is negative, no leading zero except in
    "0" itself, and a text that reads back as the value; no other text has
    these three properties. *)
Theorem setInt_stores_canonical_decimal
    (ty : IntegerType) (x : Z) (v : UniValue) (Hx : in_range ty x) :
  typ (setInt ty x v) = VNUM
  /\ val (setInt ty x v) = itoa x
  /\ has_minus (val (setInt ty x v)) = (x <? 0)
  /\ no_leading_zero (digits_of (val (setInt ty x v)))
  /\ read_int (val (setInt ty x v)) = Some x
  /\ (forall text,
        has_minus text = (x <? 0) ->
        no_leading_zero (digits_of text) ->
        read_int text = Some x ->
        text = val (setInt ty x v))
  /\ entries (setInt ty x v) = []
  /\ values (setInt ty x v) = [].
Proof.
  unfold setInt.
  rewrite (setInt64_stores _ x v (in_range_64 ty x Hx)).
  cbn [typ val entries values].
  destruct (itoa_canonical x) as (Hsign & Hzero & Hread).
  repeat split; try assumption.
  intros text. apply itoa_unique.
Qed.

Lemma setInt_stores_canonical_decimal_witness :
  in_range t_long_long (-9223372036854775808)
  /\ typ (setInt t_long_long (-9223372036854775808) NullUniValue) = VNUM
  /\ val (setInt t_long_long (-9223372036854775808) NullUniValue)
     = itoa (-9223372036854775808)
  /\ read_int (val (setInt t_long_long (-9223372036854775808) NullUniValue))
     = Some (-9223372036854775808).
Proof.
  assert (Hx : in_range t_long_long (-9223372036854775808))
    by (unfold in_range; simpl; lia).
  split; [exact Hx|].
  destruct (setInt_stores_canonical_decimal
              t_long_long (-9223372036854775808) NullUniValue Hx)
    as (Htyp & Hval & _ & _ & Hread & _).
  split; [exact Htyp|]. split; [exact Hval | exact Hread].
Defined.

Example setInt_examples :
  val (setInt t_long_long (-9223372036854775808) NullUniValue)
  = "-9223372036854775808"
  /\ val (setInt t_long_long 9223372036854775807 NullUniValue)
     = "9223372036854775807"
  /\ val (setInt t_unsigned_long_long 18446744073709551615 NullUniValue)
     = "18446744073709551615"
  /\ val (setInt t_int 0 NullUniValue) = "0"
  /\ val (setInt t_short (-7) NullUniValue) = "-7"
  /\ val (setInt t_unsigned 1000 (setStr "old" NullUniValue)) = "1000".
Proof. vm_compute. repeat split. Qed.

(** A value of the argument type is never rejected. *)
Lemma setInt_in_range_not_rejected
    (getJsonToken : string -> jtokentype * string * nat)
    (ty : IntegerType) (x : Z) :
  in_range ty x -> rejected getJsonToken (call_setInt ty x) = false.
Proof.
  intros Hx. pose proof (setInt64_stores _ x NullUniValue (in_range_64 ty x Hx)) as H.
  unfold setInt64 in H. cbn [rejected].
  destruct (snprintf bufSize (converts_to_signed ty) x) as [buf n].
  cbn [snd].
  destruct ((n <=? 0) || (n >=? bufSize)); [discriminate H | reflexivity].
Qed.

(** ** Setters *)

Lemma jtokentype_eqb_eq (a b : jtokentype) :
  jtokentype_eqb a b = true <-> a = b.
Proof. destruct a, b; simpl; split; intros H; congruence. Qed.

Section SetterProperties.

Variable getJsonToken : string -> jtokentype * string * nat.
Variable ostream_setprecision16 : float -> string.

(** A rejected call leaves the value as it is; any other call produces a
    value in which nothing of the previous one is left. *)
Lemma run_setter_resets (c : setter_call) :
  if rejected getJsonToken c
  then forall v, run_setter getJsonToken ostream_setprecision16 c v = v
  else forall v,
      run_setter getJsonToken ostream_setprecision16 c v
      = run_setter getJsonToken ostream_setprecision16 c NullUniValue
      /\ payload_consistent
           (run_setter getJsonToken ostream_setprecision16 c v).
Proof.
  destruct c; cbn [rejected run_setter];
    try (intros v; split; [reflexivity|];
         repeat split; simpl; intros; congruence).
  - unfold setNumStr. destruct (validNumStr getJsonToken val_); simpl.
    + intros v. split; [reflexivity|].
      repeat split; simpl; intros; congruence.
    + reflexivity.
  - unfold setInt, setInt64, snprintf. cbn [snd].
    match goal with
    | |- context [if ?guard then _ else _] => destruct guard
    end.
    + reflexivity.
    + intros v. split; [reflexivity|].
      repeat split; simpl; intros; congruence.
  - unfold setFloat. destruct (PrimFloat.is_finite val_); simpl.
    + intros v. split; [reflexivity|].
      repeat split; simpl; intros; congruence.
    + reflexivity.
Qed.

Lemma constructed_payload_consistent (v : UniValue) :
  constructed getJsonToken ostream_setprecision16 v -> payload_consistent v.
Proof.
  induction 1 as [|c v Hv IH].
  - repeat split.
  - pose proof (run_setter_resets c) as H.
    destruct (rejected getJsonToken c).
    + rewrite H. exact IH.
    + apply H.
Qed.

(** C3: after [setNull] the tag is Null, the string payload is empty and
    the Array and Object payloads have no element; and as every setter
    starts from this state, a setter call, unless it is one of the numeric
    calls that return before they assign, leaves nothing of the previous
    value: its result is the one it has on a fresh value, with every payload
    the new tag does not select empty. *)
Theorem setNull_clears_all_payloads (v : UniValue) (c : setter_call) :
  typ (setNull v) = VNULL
  /\ val (setNull v) = ""
  /\ List.length (entries (setNull v)) = 0%nat
  /\ List.length (values (setNull v)) = 0%nat
  /\ setNull v = NullUniValue
  /\ if rejected getJsonToken c
     then run_setter getJsonToken ostream_setprecision16 c v = v
     else run_setter getJsonToken ostream_setprecision16 c v
          = run_setter getJsonToken ostream_setprecision16 c (setNull v)
          /\ payload_consistent
               (run_setter getJsonToken ostream_setprecision16 c v).
Proof.
  repeat (split; [reflexivity|]).
  pose proof (run_setter_resets c) as H.
  destruct (rejected getJsonToken c).
  - apply H.
  - destruct (H v) as [Heq Hcons]. split; [|exact Hcons].
    rewrite Heq. symmetry. apply H.
Qed.

(** Each of the two guards returns the value as it is: [setNumStr] when the
    tokenizer does not answer with a Number token, [setFloat] when the
    double is not finite. *)
Lemma numeric_guards_return_early
    (v : UniValue) (text : string) (d : float) :
  (fst (fst (getJsonToken text)) <> JTOK_NUMBER ->
   setNumStr getJsonToken text v = v)
  /\ (PrimFloat.is_finite d = false ->
      setFloat ostream_setprecision16 d v = v).
Proof.
  split.
  - intros Htext. unfold setNumStr, validNumStr.
    destruct (getJsonToken text) as [[token_type tokenVal] consumed].
    destruct (jtokentype_eqb token_type JTOK_NUMBER) eqn:E; [|reflexivity].
    apply jtokentype_eqb_eq in E. contradiction.
  - intros Hd. unfold setFloat. rewrite Hd. reflexivity.
Qed.

End SetterProperties.

Lemma json_number_token_rejects (text : string) :
  is_json_number text = false ->
  fst (fst (json_number_token text)) <> JTOK_NUMBER.
Proof.
  intros H. unfold json_number_token. rewrite H. discriminate.
Defined.

(** C2: [setNumStr] with a text that is not a JSON number (an optional
    minus sign, an integer part without leading zero, an optional fraction
    and an optional exponent, nothing before or after), under the number
    tokenizer as the specification describes it, and [setFloat] with a
    double that is not finite (NaN, plus infinity, minus infinity), leave
    the value as it was, tag and all payloads. *)
Theorem invalid_numeric_input_is_noop
    (ostream_setprecision16 : float -> string)
    (v : UniValue) (text : string) (d : float)
    (Htext : is_json_number text = false)
    (Hd : PrimFloat.is_finite d = false) :
  setNumStr json_number_token text v = v
  /\ setFloat ostream_setprecision16 d v = v
  /\ setFloat ostream_setprecision16 PrimFloat.nan v = v
  /\ setFloat ostream_setprecision16 PrimFloat.infinity v = v
  /\ setFloat ostream_setprecision16 PrimFloat.neg_infinity v = v.
Proof.
  split; [|split; [|repeat split]].
  - apply (numeric_guards_return_early json_number_token
             ostream_setprecision16 v text d).
    apply json_number_token_rejects, Htext.
  - apply (numeric_guards_return_early json_number_token
             ostream_setprecision16 v text d), Hd.
Qed.

Example classic_setprecision16_examples :
  map classic_setprecision16
    [0.1; 0.5; 100; 1e16; 1e21; 0.0001; 0.00001; 123456789.125;
     9007199254740992; 1.5e300; 5e-324; -2.5; 0; 1000000000000000.5;
     0.3; 2.675; 1e15; 123456789012345678]%float
  = ["0.1"; "0.5"; "100"; "1e+16"; "1e+21"; "0.0001"; "1e-05";
     "123456789.125"; "9007199254740992"; "1.5e+300";
     "4.940656458412465e-324"; "-2.5"; "0"; "1000000000000000";
     "0.3"; "2.675"; "1000000000000000"; "1.234567890123457e+17"].
Proof. vm_compute. reflexivity. Qed.

Example json_number_token_examples :
  map is_json_number
    ["0"; "-12"; "1.50"; "2e10"; "-0.5E-3"; "not a number"; ""; "01";
     "1."; "-"; "1e"; "12abc"; ".5"; "+1"]
  = [true; true; true; true; true;
     false; false; false; false; false; false; false; false; false].
Proof. reflexivity. Qed.

Lemma invalid_numeric_input_is_noop_witness :
  is_json_number "12abc" = false
  /\ PrimFloat.is_finite PrimFloat.infinity = false
  /\ setNumStr json_number_token "12abc" (setStr "kept" NullUniValue)
     = setStr "kept" NullUniValue
  /\ setFloat classic_setprecision16 PrimFloat.infinity
       (setStr "kept" NullUniValue)
     = setStr "kept" NullUniValue
  /\ setFloat classic_setprecision16 PrimFloat.nan
       (setStr "kept" NullUniValue)
     = setStr "kept" NullUniValue.
Proof.
  assert (Htext : is_json_number "12abc" = false) by reflexivity.
  assert (Hd : PrimFloat.is_finite PrimFloat.infinity = false)
    by reflexivity.
  split; [exact Htext|]. split; [exact Hd|].
  destruct (invalid_numeric_input_is_noop
              classic_setprecision16
              (setStr "kept" NullUniValue) "12abc"
              PrimFloat.infinity Htext Hd)
    as (Hnum & Hinf & Hnan & _).
  split; [exact Hnum|]. split; [exact Hinf | exact Hnan].
Defined.

(** A valid text and a finite double are stored, in place of what was
    there. *)
Example numeric_setters_store :
  setNumStr json_number_token "1.50" (setStr "old" NullUniValue)
  = mkUniValue VNUM "1.50" [] []
  /\ setFloat classic_setprecision16 0.5%float
       (setArray_from example_array NullUniValue)
     = mkUniValue VNUM "0.5" [] []
  /\ setFloat classic_setprecision16 PrimFloat.neg_infinity
       (setArray_from example_array NullUniValue)
     = setArray_from example_array NullUniValue.
Proof. vm_compute. repeat split. Qed.

(** ** Equality is an equivalence *)

Lemma VType_eqb_refl (t : VType) : VType_eqb t t = true.
Proof. destruct t; reflexivity. Qed.

Lemma VType_eqb_sym (a b : VType) : VType_eqb a b = VType_eqb b a.
Proof. destruct a, b; reflexivity. Qed.

Lemma vector_eqb_refl {A : Type} (f : A -> A -> bool) (l : list A) :
  Forall (fun x => f x x = true) l -> vector_eqb f l l = true.
Proof.
  induction 1 as [|x r Hx _ IH]; simpl; [reflexivity|].
  now rewrite Hx, IH.
Qed.

Lemma vector_eqb_sym {A : Type} (f : A -> A -> bool) (l1 : list A) :
  Forall (fun x => forall y, f x y = f y x) l1 ->
  forall l2, vector_eqb f l1 l2 = vector_eqb f l2 l1.
Proof.
  induction 1 as [|x r Hx _ IH]; intros [|y r2]; simpl; try reflexivity.
  now rewrite Hx, IH.
Qed.

Lemma vector_eqb_trans {A : Type} (f : A -> A -> bool) (l1 : list A) :
  Forall (fun x => forall y z, f x y = true -> f y z = true -> f x z = true)
    l1 ->
  forall l2 l3,
    vector_eqb f l1 l2 = true -> vector_eqb f l2 l3 = true ->
    vector_eqb f l1 l3 = true.
Proof.
  induction 1 as [|x r Hx _ IH]; intros [|y r2] [|z r3] H12 H23;
    simpl in *; try discriminate; try reflexivity.
  apply andb_true_iff in H12. destruct H12 as [Hxy Hr12].
  apply andb_true_iff in H23. destruct H23 as [Hyz Hr23].
  apply andb_true_iff. split.
  - exact (Hx y z Hxy Hyz).
  - exact (IH r2 r3 Hr12 Hr23).
Qed.

Lemma uv_eqb_refl (a : UniValue) : uv_eqb a a = true.
Proof.
  induction a as [t s es vs IHes IHvs] using UniValue_nested_ind.
  rewrite uv_eqb_unfold. cbn [typ val entries values].
  rewrite VType_eqb_refl. cbn [negb].
  destruct t; try reflexivity; try apply String.eqb_refl.
  - apply vector_eqb_refl.
    eapply Forall_impl; [|exact IHes].
    intros [k x] Hx. cbn [fst snd] in *. now rewrite String.eqb_refl, Hx.
  - apply vector_eqb_refl. exact IHvs.
Qed.

Lemma uv_eqb_sym (a : UniValue) : forall b, uv_eqb a b = uv_eqb b a.
Proof.
  induction a as [t s es vs IHes IHvs] using UniValue_nested_ind.
  intros b. rewrite (uv_eqb_unfold _ b), (uv_eqb_unfold b).
  cbn [typ val entries values].
  rewrite (VType_eqb_sym (typ b) t).
  destruct (VType_eqb t (typ b)) eqn:Et; [|reflexivity].
  apply VType_eqb_eq in Et. rewrite <- Et. cbn [negb].
  destruct t; try reflexivity; try apply String.eqb_sym.
  - apply vector_eqb_sym.
    eapply Forall_impl; [|exact IHes].
    intros [k x] Hx [k' y]. cbn [fst snd] in *.
    now rewrite String.eqb_sym, Hx.
  - apply vector_eqb_sym. exact IHvs.
Qed.

Lemma uv_eqb_trans (a : UniValue) :
  forall b c, uv_eqb a b = true -> uv_eqb b c = true -> uv_eqb a c = true.
Proof.
  induction a as [t s es vs IHes IHvs] using UniValue_nested_ind.
  intros b c. rewrite (uv_eqb_unfold _ b), (uv_eqb_unfold b c),
    (uv_eqb_unfold _ c). cbn [typ val entries values].
  destruct (VType_eqb t (typ b)) eqn:Eab; [|discriminate].
  apply VType_eqb_eq in Eab. rewrite <- Eab.
  destruct (VType_eqb t (typ c)) eqn:Eac; [|intros _ H; exact H].
  cbn [negb]. destruct t; try (intros; reflexivity).
  - apply vector_eqb_trans.
    eapply Forall_impl; [|exact IHes].
    intros [k x] Hx [k' y] [k'' z]. cbn [fst snd] in *.
    rewrite !andb_true_iff, !String.eqb_eq.
    intros [-> Hxy] [-> Hyz]. split; [reflexivity|].
    exact (Hx y z Hxy Hyz).
  - apply vector_eqb_trans. exact IHvs.
  - rewrite !String.eqb_eq. congruence.
  - rewrite !String.eqb_eq. congruence.
Qed.

(** X1: [operator==] is an equivalence on values: every value equals
    itself, the comparison does not depend on the side a value stands on,
    and two values equal to a third are equal. *)
Theorem equality_is_equivalence (a b c : UniValue) :
  uv_eqb a a = true
  /\ uv_eqb a b = uv_eqb b a
  /\ (uv_eqb a b = true -> uv_eqb b c = true -> uv_eqb a c = true).
Proof.
  split; [apply uv_eqb_refl|]. split; [apply uv_eqb_sym|].
  apply uv_eqb_trans.
Qed.

(** ** Equality and identity *)

Lemma vector_eqb_identity {A : Type} (f : A -> A -> bool) (Q : A -> Prop)
    (l1 : list A) :
  Forall (fun x => forall y, Q y -> f x y = true -> x = y) l1 ->
  forall l2, Forall Q l2 -> vector_eqb f l1 l2 = true -> l1 = l2.
Proof.
  induction 1 as [|x r Hx _ IH]; intros [|y r2] HQ H; simpl in H;
    try discriminate; [reflexivity|].
  apply andb_true_iff in H. destruct H as [Hxy Hr].
  inversion HQ; subst. f_equal; [apply Hx | apply IH]; assumption.
Qed.

Lemma consistent_tree_identity (a : UniValue) :
  consistent_tree a ->
  forall b, consistent_tree b -> uv_eqb a b = true -> a = b.
Proof.
  induction a as [t s es vs IHes IHvs] using UniValue_nested_ind.
  intros Ha [t' s' es' vs'] Hb Heq.
  inversion Ha as [? (Hae & Hav & Has) Haes Havs]; subst.
  inversion Hb as [? (Hbe & Hbv & Hbs) Hbes Hbvs]; subst.
  cbn [typ val entries values] in *.
  rewrite uv_eqb_unfold in Heq. cbn [typ val entries values] in Heq.
  destruct (VType_eqb t t') eqn:Et; [|discriminate].
  apply VType_eqb_eq in Et. subst t'. cbn [negb] in Heq.
  destruct t.
  - rewrite Hae, Hav, Has, Hbe, Hbv, Hbs by discriminate. reflexivity.
  - rewrite Hae, Hav, Has, Hbe, Hbv, Hbs by discriminate. reflexivity.
  - rewrite Hae, Hav, Has, Hbe, Hbv, Hbs by discriminate. reflexivity.
  - rewrite Hav, Has, Hbv, Hbs by discriminate. f_equal.
    apply (vector_eqb_identity
             (fun p q => String.eqb (fst p) (fst q) && uv_eqb (snd p) (snd q))
             (fun entry => consistent_tree (snd entry))
             es) with (l2 := es'); [|exact Hbes | exact Heq].
    rewrite Forall_forall in IHes, Haes |- *.
    intros [k x] Hin [k' y] Hy Hxy. cbn [fst snd] in *.
    apply andb_true_iff in Hxy. destruct Hxy as [Hk Hv].
    apply String.eqb_eq in Hk. subst k'. f_equal.
    exact (IHes _ Hin (Haes _ Hin) y Hy Hv).
  - rewrite Hae, Has, Hbe, Hbs by discriminate. f_equal.
    apply (vector_eqb_identity uv_eqb consistent_tree vs) with (l2 := vs');
      [|exact Hbvs | exact Heq].
    rewrite Forall_forall in IHvs, Havs |- *.
    intros x Hin y Hy Hxy. exact (IHvs _ Hin (Havs _ Hin) y Hy Hxy).
  - apply String.eqb_eq in Heq. subst s'.
    rewrite Hae, Hav, Hbe, Hbv by discriminate. reflexivity.
  - apply String.eqb_eq in Heq. subst s'.
    rewrite Hae, Hav, Hbe, Hbv by discriminate. reflexivity.
Qed.

(** X2: on values whose unselected payloads are empty at every level,
    [operator==] holds exactly for identical values; a payload left behind
    in an unselected member is not seen by the comparison. *)
Theorem equality_is_identity_on_consistent_values
    (a b : UniValue)
    (Ha : consistent_tree a) (Hb : consistent_tree b) :
  (uv_eqb a b = true <-> a = b)
  /\ uv_eqb (mkUniValue VNULL "left behind" [] []) NullUniValue = true.
Proof.
  split; [|reflexivity]. split.
  - apply consistent_tree_identity; assumption.
  - intros ->. apply uv_eqb_refl.
Qed.

Lemma example_number_consistent (text : string) :
  consistent_tree (example_number text).
Proof.
  constructor; [|constructor|constructor].
  repeat split; simpl; intros; congruence.
Defined.

Lemma example_object_consistent :
  consistent_tree (setObject_from example_object NullUniValue).
Proof.
  constructor; [|simpl|constructor].
  - repeat split; simpl; intros; congruence.
  - repeat (apply Forall_cons; [apply example_number_consistent|]).
    apply Forall_nil.
Defined.

Lemma equality_is_identity_on_consistent_values_witness :
  consistent_tree (setObject_from example_object NullUniValue)
  /\ (uv_eqb (setObject_from example_object NullUniValue)
             (setObject_from example_object NullUniValue) = true
      <-> setObject_from example_object NullUniValue
          = setObject_from example_object NullUniValue).
Proof.
  split; [exact example_object_consistent|].
  apply (equality_is_identity_on_consistent_values
           _ _ example_object_consistent example_object_consistent).
Defined.

(** ** Equal values under the accessors *)

Lemma locate_from_same_keys (key : string) (l1 : Object) :
  forall l2 base,
    Forall2 (fun p q : string * UniValue => fst p = fst q) l1 l2 ->
    Obj.locate_from base key l1 = Obj.locate_from base key l2.
Proof.
  induction l1 as [|p r IH]; intros l2 base H; inversion H as [|? q ? r2 Hk Hr];
    subst; [reflexivity|].
  cbn [Obj.locate_from]. rewrite Hk.
  destruct (String.eqb (fst q) key); [reflexivity | apply IH, Hr].
Qed.

Lemma uv_eqb_payloads (a b : UniValue) :
  uv_eqb a b = true ->
  typ a = typ b
  /\ (typ a = VOBJ ->
      Forall2 (fun p q => fst p = fst q /\ uv_eqb (snd p) (snd q) = true)
        (entries a) (entries b))
  /\ (typ a = VARR ->
      Forall2 (fun x y => uv_eqb x y = true) (values a) (values b)).
Proof.
  rewrite uv_eqb_unfold.
  destruct (VType_eqb (typ a) (typ b)) eqn:Et; [|discriminate].
  apply VType_eqb_eq in Et. cbn [negb]. intros H.
  split; [exact Et|]. split; intros Ht; rewrite Ht in H.
  - apply vector_eqb_Forall2 in H.
    eapply Forall2_impl; [|exact H].
    intros p q Hpq. apply andb_true_iff in Hpq. destruct Hpq as [Hk Hv].
    apply String.eqb_eq in Hk. split; assumption.
  - apply vector_eqb_Forall2 in H. exact H.
Qed.

Lemma Forall2_nth_error {A B : Type} (R : A -> B -> Prop)
    (l1 : list A) (l2 : list B) :
  Forall2 R l1 l2 ->
  forall i x, nth_error l1 i = Some x ->
              exists y, nth_error l2 i = Some y /\ R x y.
Proof.
  induction 1 as [|x0 y0 r1 r2 Hxy _ IH]; intros [|i] x Hx; simpl in *;
    try discriminate.
  - inversion Hx; subst. exists y0. split; [reflexivity | exact Hxy].
  - apply IH, Hx.
Qed.

(** X17: two values that are equal under [operator==] answer the accessors
    alike: [at] by key and by index return the same reference or throw the
    same error with the same message, [operator[]] by index, [front] and
    [back] return the same reference, and the elements the positional
    [operator[]] designates in the two values are equal in their turn. *)
Theorem equal_values_answer_alike
    (a b : UniValue) (key : string) (i : size_type)
    (Heq : uv_eqb a b = true) :
  at_key a key = at_key b key
  /\ at_index a i = at_index b i
  /\ index a i = index b i
  /\ front a = front b
  /\ back a = back b
  /\ (forall x, deref a (index a i) = Some x ->
                exists y, deref b (index b i) = Some y /\ uv_eqb x y = true).
Proof.
  destruct (uv_eqb_payloads a b Heq) as (Ht & Hobj & Harr).
  assert (Hlen_o : typ a = VOBJ ->
            List.length (entries a) = List.length (entries b))
    by (intros H; eapply Forall2_length; exact (Hobj H)).
  assert (Hlen_a : typ a = VARR ->
            List.length (values a) = List.length (values b))
    by (intros H; eapply Forall2_length; exact (Harr H)).
  assert (Hidx : index a i = index b i).
  { unfold index. rewrite <- Ht. destruct (typ a) eqn:E; try reflexivity.
    - unfold Obj.index. now rewrite Hlen_o.
    - unfold Arr.index. now rewrite Hlen_a. }
  split; [|split; [|split; [exact Hidx | split; [|split]]]].
  - unfold at_key. rewrite <- Ht.
    destruct (VType_eqb (typ a) VOBJ) eqn:E; [|reflexivity].
    apply VType_eqb_eq in E. unfold Obj.at_key, Obj.locate.
    rewrite (locate_from_same_keys key (entries a) (entries b) 0%nat);
      [reflexivity|].
    eapply Forall2_impl; [|exact (Hobj E)]. intros p q [Hk _]. exact Hk.
  - unfold at_index. rewrite <- Ht. destruct (typ a) eqn:E; try reflexivity.
    + unfold Obj.at_index. now rewrite Hlen_o.
    + unfold Arr.at_index. now rewrite Hlen_a.
  - unfold front. rewrite <- Ht. destruct (typ a) eqn:E; try reflexivity.
    + unfold Obj.front. now rewrite Hlen_o.
    + unfold Arr.front. now rewrite Hlen_a.
  - unfold back. rewrite <- Ht. destruct (typ a) eqn:E; try reflexivity.
    + unfold Obj.back. now rewrite Hlen_o.
    + unfold Arr.back. now rewrite Hlen_a.
  - intros x Hx. rewrite <- Hidx. unfold index in *.
    destruct (typ a) eqn:E;
      try (inversion Hx; subst; exists NullUniValue;
           split; [reflexivity | apply uv_eqb_refl]).
    + unfold Obj.index in *.
      destruct (i <? List.length (entries a))%nat;
        [|inversion Hx; subst; exists NullUniValue;
          split; [reflexivity | apply uv_eqb_refl]].
      cbn [deref] in *.
      destruct (nth_error (entries a) i) as [p|] eqn:Ep; [|discriminate].
      destruct (Forall2_nth_error _ _ _ (Hobj eq_refl) i p Ep)
        as (q & Eq & _ & Hv).
      rewrite Eq. simpl in Hx |- *. inversion Hx; subst.
      exists (snd q). split; [reflexivity | exact Hv].
    + unfold Arr.index in *.
      destruct (i <? List.length (values a))%nat;
        [|inversion Hx; subst; exists NullUniValue;
          split; [reflexivity | apply uv_eqb_refl]].
      cbn [deref] in *.
      destruct (Forall2_nth_error _ _ _ (Harr eq_refl) i x Hx)
        as (y & Ey & Hv).
      exists y. split; assumption.
Qed.

Lemma equal_values_answer_alike_witness :
  uv_eqb (mkUniValue VOBJ "stale" example_object [])
         (setObject_from example_object NullUniValue) = true
  /\ at_key (mkUniValue VOBJ "stale" example_object []) "b"
     = at_key (setObject_from example_object NullUniValue) "b"
  /\ at_index (mkUniValue VOBJ "stale" example_object []) 7%nat
     = at_index (setObject_from example_object NullUniValue) 7%nat.
Proof.
  split; [reflexivity|].
  destruct (equal_values_answer_alike
              (mkUniValue VOBJ "stale" example_object [])
              (setObject_from example_object NullUniValue)
              "b" 7%nat eq_refl) as (Hkey & Hindex & _).
  split; [exact Hkey | exact Hindex].
Defined.

(** ** Access by key: the throwing and the non-throwing path *)

(** X3: [Object::at] by key returns the reference to a position exactly
    when this position is the first one that holds the key: an entry behind
    an earlier entry of the same key is never what a lookup by key returns,
    while [at] by its position still returns it. *)
Theorem object_at_key_first_match_only
    (o : Object) (key : string) (pos : nat) :
  (Obj.at_key o key = Return (ref_entry pos) <-> first_match o key pos)
  /\ (Obj.at_index o pos = Return (ref_entry pos)
      <-> (pos < List.length o)%nat).
Proof.
  split.
  - destruct (Obj_at_key_lookup o key)
      as [(q & Hq & Heq) | (Habs & msg & Heq & _)]; rewrite Heq.
    + split.
      * intros H. inversion H; subst. exact Hq.
      * intros Hp. now rewrite (first_match_unique _ _ _ _ Hp Hq).
    + split; [discriminate|].
      intros Hp. exfalso. exact (first_match_not_absent _ _ _ Hp Habs).
  - unfold Obj.at_index. destruct (pos <? List.length o)%nat eqn:E.
    + apply Nat.ltb_lt in E. split; [intros _; exact E | reflexivity].
    + apply Nat.ltb_ge in E. split; [discriminate | lia].
Qed.

Example shadowed_entry_by_position :
  Obj.at_key example_object "a" = Return (ref_entry 0%nat)
  /\ Obj.at_index example_object 2%nat = Return (ref_entry 2%nat)
  /\ deref (setObject_from example_object NullUniValue) (ref_entry 2%nat)
     = Some (example_number "3").
Proof. repeat split. Qed.

(** X4: on every value, [at] by key returns a reference only for an Object
    that holds the key, and then it is the reference that [operator[]] and
    [locate] give; it throws the out-of-range error exactly for an Object
    on which [operator[]] gives the sentinel, and the domain error exactly
    for a value that is no Object. *)
Theorem value_at_key_agrees_with_index_key (v : UniValue) (key : string) :
  (forall r, at_key v key = Return r ->
             typ v = VOBJ /\ index_key v key = r /\ locate v key = Some r
             /\ r <> ref_NullUniValue)
  /\ ((exists msg, at_key v key = Throw (out_of_range msg))
      <-> typ v = VOBJ /\ index_key v key = ref_NullUniValue)
  /\ ((exists msg, at_key v key = Throw (domain_error msg))
      <-> typ v <> VOBJ).
Proof.
  unfold at_key, index_key, locate, Obj.at_key.
  destruct (VType_eqb (typ v) VOBJ) eqn:Et.
  - apply VType_eqb_eq in Et.
    destruct (locate_none_or_entry (entries v) key)
      as [[-> _] | (pos & value & -> & _)].
    + split; [discriminate|]. split.
      * split; [intros _; split; [exact Et | reflexivity]|].
        intros _. eexists. reflexivity.
      * split; [intros [msg H]; discriminate | congruence].
    + split.
      * intros r H. inversion H; subst.
        repeat split; [exact Et | discriminate].
      * split.
        -- split; [intros [msg H]; discriminate|].
           intros [_ H]. discriminate.
        -- split; [intros [msg H]; discriminate | congruence].
  - assert (Hne : typ v <> VOBJ)
      by (intros H; apply VType_eqb_eq in H; congruence).
    split; [discriminate|]. split.
    + split; [intros [msg H]; discriminate|]. intros [H _]. contradiction.
    + split; [intros _; exact Hne|]. intros _. eexists. reflexivity.
Qed.

(** ** First and last element *)

(** X5: [front] is [operator[]] at position 0 and [back] is [operator[]] at
    the last position, on the two containers and on a value, the empty
    container included, where neither position exists; the two coincide
    exactly when the active container has at most one element. *)
Theorem front_back_are_end_positions (v : UniValue) :
  front v = index v 0%nat
  /\ back v = index v (active_size v - 1)%nat
  /\ Obj.front (entries v) = Obj.index (entries v) 0%nat
  /\ Obj.back (entries v)
     = Obj.index (entries v) (List.length (entries v) - 1)%nat
  /\ Arr.front (values v) = Arr.index (values v) 0%nat
  /\ Arr.back (values v)
     = Arr.index (values v) (List.length (values v) - 1)%nat
  /\ (front v = back v <-> (active_size v <= 1)%nat).
Proof.
  assert (Hof : forall o : Object, Obj.front o = Obj.index o 0%nat)
    by (intros [|e r]; reflexivity).
  assert (Hob : forall o : Object,
             Obj.back o = Obj.index o (List.length o - 1)%nat).
  { intros o. unfold Obj.back, Obj.index. destruct o as [|e r];
      [reflexivity|]. cbn [List.length Nat.eqb negb].
    assert (H : (S (List.length r) - 1 <? S (List.length r))%nat = true)
      by (apply Nat.ltb_lt; lia).
    now rewrite H. }
  assert (Haf : forall a : Array, Arr.front a = Arr.index a 0%nat)
    by (intros [|e r]; reflexivity).
  assert (Hab : forall a : Array,
             Arr.back a = Arr.index a (List.length a - 1)%nat).
  { intros a. unfold Arr.back, Arr.index. destruct a as [|e r];
      [reflexivity|]. cbn [List.length Nat.eqb negb].
    assert (H : (S (List.length r) - 1 <? S (List.length r))%nat = true)
      by (apply Nat.ltb_lt; lia).
    now rewrite H. }
  assert (Hf : front v = index v 0%nat)
    by (unfold front, index; destruct (typ v); auto).
  assert (Hb : back v = index v (active_size v - 1)%nat)
    by (unfold back, index, active_size; destruct (typ v); auto).
  split; [exact Hf|]. split; [exact Hb|].
  split; [apply Hof|]. split; [apply Hob|].
  split; [apply Haf|]. split; [apply Hab|].
  unfold front, back, active_size, Obj.front, Obj.back, Arr.front, Arr.back.
  destruct (typ v); try (split; [intros _; lia | reflexivity]).
  - destruct (entries v) as [|e [|e' r]]; cbn [List.length Nat.eqb negb].
    + split; [intros _; lia | reflexivity].
    + split; [intros _; lia | reflexivity].
    + split; [intros H; inversion H | lia].
  - destruct (values v) as [|e [|e' r]]; cbn [List.length Nat.eqb negb].
    + split; [intros _; lia | reflexivity].
    + split; [intros _; lia | reflexivity].
    + split; [intros H; inversion H | lia].
Qed.

(** ** Reading the tags off the name of a mask *)

Lemma joined_names_lists (selected : VType -> bool) (type : VType) :
  lists_name (joined_names selected) (uvTypeName type) = selected type.
Proof.
  unfold joined_names, canonical_order. cbn [filter].
  destruct (selected VNULL) eqn:E0, (selected VFALSE) eqn:E1,
    (selected VTRUE) eqn:E2, (selected VOBJ) eqn:E3,
    (selected VARR) eqn:E4, (selected VNUM) eqn:E5,
    (selected VSTR) eqn:E6;
    destruct type; (rewrite ?E0, ?E1, ?E2, ?E3, ?E4, ?E5, ?E6);
    vm_compute; reflexivity.
Qed.

Lemma uvTypeName_inj (a b : VType) : uvTypeName a = uvTypeName b -> a = b.
Proof. destruct a, b; simpl; intros H; first [reflexivity | discriminate H]. Qed.

Section TypeMaskReadBack.

Variable VType_value : VType -> Z.
Variable VType_bit : VType -> Z.
Hypothesis VType_single_bit : forall t, VType_value t = 2 ^ VType_bit t.
Hypothesis VType_bit_nonneg : forall t, 0 <= VType_bit t.
Hypothesis VType_bit_distinct :
  forall a b, VType_bit a = VType_bit b -> a = b.

Lemma uvTypeName_mask_joined_names (t : Z) :
  uvTypeName_mask VType_value t
  = joined_names (fun type => Z.testbit t (VType_bit type)).
Proof.
  rewrite (uvTypeName_mask_join_onto VType_value VType_bit
             VType_single_bit VType_bit_nonneg).
  apply join_onto_concat, names_of_set_bits_not_empty.
Qed.

(** X6: the name of a mask lists the name of a tag, between its slashes,
    exactly when the bit of the tag is set in the mask, so that two masks
    have the same name only if they hold the same tags; the mask of a single
    tag has the name the one-tag overload gives, and different tags have
    different names. *)
Theorem uvTypeName_mask_read_back (t t' : Z) (type : VType) :
  lists_name (uvTypeName_mask VType_value t) (uvTypeName type)
  = Z.testbit t (VType_bit type)
  /\ (uvTypeName_mask VType_value t = uvTypeName_mask VType_value t' ->
      Z.testbit t (VType_bit type) = Z.testbit t' (VType_bit type))
  /\ uvTypeName_mask VType_value (VType_value type) = uvTypeName type
  /\ (forall other, uvTypeName other = uvTypeName type -> other = type).
Proof.
  assert (Hread : forall m ty,
             lists_name (uvTypeName_mask VType_value m) (uvTypeName ty)
             = Z.testbit m (VType_bit ty)).
  { intros m ty. rewrite uvTypeName_mask_joined_names.
    apply (joined_names_lists (fun type0 => Z.testbit m (VType_bit type0))). }
  split; [apply Hread|]. split.
  - intros Heq. rewrite <- !Hread, Heq. reflexivity.
  - split; [|intros other; apply uvTypeName_inj].
    rewrite uvTypeName_mask_joined_names. unfold joined_names.
    assert (Hsel : forall ty,
               Z.testbit (VType_value type) (VType_bit ty)
               = VType_eqb type ty).
    { intros ty. rewrite VType_single_bit,
        Z.pow2_bits_eqb by apply VType_bit_nonneg.
      destruct (VType_eqb type ty) eqn:E.
      - apply VType_eqb_eq in E. subst. apply Z.eqb_refl.
      - apply Z.eqb_neq. intros H. apply VType_bit_distinct in H.
        apply VType_eqb_eq in H. congruence. }
    unfold canonical_order. cbn [filter]. rewrite !Hsel.
    destruct type; reflexivity.
Qed.

End TypeMaskReadBack.

Lemma uvTypeName_mask_read_back_witness :
  lists_name (uvTypeName_mask flag_value 24) "array" = true
  /\ lists_name (uvTypeName_mask flag_value 24) "number" = false
  /\ uvTypeName_mask flag_value (flag_value VNUM) = "number".
Proof.
  destruct (uvTypeName_mask_read_back flag_value flag_bit
              flag_value_single_bit flag_bit_nonneg flag_bit_distinct
              24 24 VARR) as (Harr & _ & _).
  destruct (uvTypeName_mask_read_back flag_value flag_bit
              flag_value_single_bit flag_bit_nonneg flag_bit_distinct
              24 24 VNUM) as (Hnum & _ & Hone & _).
  split; [exact Harr|]. split; [exact Hnum | exact Hone].
Defined.

(** ** Integers as Numbers *)

Lemma itoa_inj (x y : Z) : itoa x = itoa y -> x = y.
Proof.
  intros H.
  destruct (itoa_canonical x) as (_ & _ & Hx).
  destruct (itoa_canonical y) as (_ & _ & Hy).
  rewrite H in Hx. congruence.
Qed.

(** X7: two Numbers set from integers, by whichever overloads and over
    whatever previous values, are equal under [operator==] exactly when the
    integers are equal: the comparison of the texts decides the comparison
    of the numbers. *)
Theorem setInt_equality_is_integer_equality
    (ty1 ty2 : IntegerType) (x y : Z) (v w : UniValue)
    (Hx : in_range ty1 x) (Hy : in_range ty2 y) :
  uv_eqb (setInt ty1 x v) (setInt ty2 y w) = true <-> x = y.
Proof.
  unfold setInt.
  rewrite (setInt64_stores _ x v (in_range_64 ty1 x Hx)).
  rewrite (setInt64_stores _ y w (in_range_64 ty2 y Hy)).
  rewrite uv_eqb_unfold. cbn [typ val VType_eqb negb].
  rewrite String.eqb_eq. split.
  - apply itoa_inj.
  - intros ->. reflexivity.
Qed.

Lemma in_range_int_7 : in_range t_int 7.
Proof. unfold in_range; simpl; lia. Defined.

Lemma in_range_unsigned_long_long_7 : in_range t_unsigned_long_long 7.
Proof. unfold in_range; simpl; lia. Defined.

Lemma setInt_equality_is_integer_equality_witness :
  in_range t_int 7 /\ in_range t_unsigned_long_long 7
  /\ uv_eqb (setInt t_int 7 NullUniValue)
            (setInt t_unsigned_long_long 7 (setStr "old" NullUniValue))
     = true.
Proof.
  split; [exact in_range_int_7|].
  split; [exact in_range_unsigned_long_long_7|].
  apply (setInt_equality_is_integer_equality
           t_int t_unsigned_long_long 7 7 NullUniValue
           (setStr "old" NullUniValue)
           in_range_int_7 in_range_unsigned_long_long_7).
  reflexivity.
Defined.

(** What [utoa_fuel] writes consists of digits. *)
Lemma skip_digits_utoa_fuel (fuel : nat) :
  forall n acc,
    0 <= n < 10 ^ Z.of_nat (S fuel) ->
    skip_digits (utoa_fuel (S fuel) n acc) = skip_digits acc.
Proof.
  induction fuel as [|fuel IH]; intros n acc Hn;
    rewrite utoa_fuel_S; destruct (n <? 10) eqn:E.
  - cbn [skip_digits].
    now destruct (digit_char_is_digit (n mod 10) (mod10_digit n)) as (-> & _).
  - apply Z.ltb_ge in E. change (10 ^ Z.of_nat 1) with 10 in Hn. lia.
  - cbn [skip_digits].
    now destruct (digit_char_is_digit (n mod 10) (mod10_digit n)) as (-> & _).
  - rewrite IH by (apply div10_below; exact Hn). cbn [skip_digits].
    now destruct (digit_char_is_digit (n mod 10) (mod10_digit n)) as (-> & _).
Qed.

Lemma number_int_part_digits (c : ascii) (rest : string) :
  is_digit c = true -> skip_digits rest = "" ->
  (c = "0"%char -> rest = "") ->
  number_int_part (String c rest) = Some "".
Proof.
  intros Hd Hrest Hzero.
  destruct (Ascii.eqb c "0") eqn:E.
  - apply Ascii.eqb_eq in E. subst c. rewrite (Hzero eq_refl). reflexivity.
  - assert (Hgen : number_int_part (String c rest) = digits1 (String c rest)).
    { apply Ascii.eqb_neq in E.
      destruct c as [b0 b1 b2 b3 b4 b5 b6 b7].
      destruct b0, b1, b2, b3, b4, b5, b6, b7;
        first [ reflexivity | exfalso; apply E; reflexivity ]. }
    rewrite Hgen. unfold digits1. rewrite Hd, Hrest. reflexivity.
Qed.

Lemma utoa_is_json_number (n : Z) :
  0 <= n -> number_int_part (utoa n) = Some "".
Proof.
  intros Hn.
  destruct (utoa_head n Hn) as (d & rest & Heq & Hd & Hzero).
  assert (Hskip : skip_digits (utoa n) = "").
  { unfold utoa. rewrite skip_digits_utoa_fuel by (apply utoa_fuel_enough, Hn).
    reflexivity. }
  rewrite Heq in Hskip |- *.
  destruct (digit_char_is_digit d Hd) as (Hdig & _ & _ & Hz).
  cbn [skip_digits] in Hskip. rewrite Hdig in Hskip.
  apply number_int_part_digits; [exact Hdig | exact Hskip |].
  intros Hc. apply Hz in Hc. apply (Hzero Hc).
Qed.

Lemma all_digits_utoa_fuel (fuel : nat) :
  forall n acc,
    0 <= n < 10 ^ Z.of_nat (S fuel) ->
    all_digits (utoa_fuel (S fuel) n acc) = all_digits acc.
Proof.
  unfold all_digits.
  induction fuel as [|fuel IH]; intros n acc Hn;
    rewrite utoa_fuel_S; destruct (n <? 10) eqn:E.
  - cbn [list_ascii_of_string forallb].
    now destruct (digit_char_is_digit (n mod 10) (mod10_digit n)) as (-> & _).
  - apply Z.ltb_ge in E. change (10 ^ Z.of_nat 1) with 10 in Hn. lia.
  - cbn [list_ascii_of_string forallb].
    now destruct (digit_char_is_digit (n mod 10) (mod10_digit n)) as (-> & _).
  - rewrite IH by (apply div10_below; exact Hn).
    cbn [list_ascii_of_string forallb].
    now destruct (digit_char_is_digit (n mod 10) (mod10_digit n)) as (-> & _).
Qed.

Lemma utoa_all_digits (n : Z) :
  0 <= n -> all_digits (utoa n) = true /\ utoa n <> "".
Proof.
  intros Hn. split.
  - unfold utoa. rewrite all_digits_utoa_fuel by (apply utoa_fuel_enough, Hn).
    reflexivity.
  - destruct (utoa_head n Hn) as (d & rest & -> & _). discriminate.
Qed.

(** X8: the text [setInt] stores for a value of the argument type is a
    JSON number and an integer: a minus sign exactly when the value is
    negative, then one or more decimal digits and nothing else, no fraction
    and no exponent, without leading zero except in "0" itself. *)
Theorem setInt_stores_json_number
    (ty : IntegerType) (x : Z) (v : UniValue) (Hx : in_range ty x) :
  is_json_number (val (setInt ty x v)) = true
  /\ has_minus (val (setInt ty x v)) = (x <? 0)
  /\ all_digits (digits_of (val (setInt ty x v))) = true
  /\ digits_of (val (setInt ty x v)) <> ""
  /\ no_leading_zero (digits_of (val (setInt ty x v))).
Proof.
  unfold setInt.
  rewrite (setInt64_stores _ x v (in_range_64 ty x Hx)). cbn [val].
  assert (Hdigits : digits_of (itoa x) = utoa (Z.abs x)).
  { unfold itoa. destruct (x <? 0) eqn:E.
    - apply Z.ltb_lt in E. cbn [digits_of]. f_equal. lia.
    - apply Z.ltb_ge in E. destruct (utoa_no_minus x E) as [_ ->].
      f_equal. lia. }
  destruct (itoa_canonical x) as (Hsign & Hzero & _).
  destruct (utoa_all_digits (Z.abs x) ltac:(lia)) as [Hall Hne].
  split; [|split; [exact Hsign | split; [|split; [|exact Hzero]]]].
  - unfold is_json_number. rewrite Hdigits.
    rewrite utoa_is_json_number by lia. reflexivity.
  - rewrite Hdigits. exact Hall.
  - rewrite Hdigits. exact Hne.
Qed.

Lemma in_range_short_m7 : in_range t_short (-7).
Proof. unfold in_range; simpl; lia. Defined.

Lemma setInt_stores_json_number_witness :
  in_range t_short (-7)
  /\ is_json_number (val (setInt t_short (-7) NullUniValue)) = true
  /\ all_digits (digits_of (val (setInt t_short (-7) NullUniValue))) = true.
Proof.
  split; [exact in_range_short_m7|].
  destruct (setInt_stores_json_number t_short (-7) NullUniValue
              in_range_short_m7) as (Hjson & _ & Hall & _).
  split; [exact Hjson | exact Hall].
Defined.

(** ** Sequences of setter calls *)

Section SetterSequenceProperties.

Variable getJsonToken : string -> jtokentype * string * nat.
Variable ostream_setprecision16 : float -> string.

Lemma run_setters_snoc (calls : list setter_call) (c : setter_call)
    (v : UniValue) :
  run_setters getJsonToken ostream_setprecision16 (calls ++ [c]) v
  = run_setter getJsonToken ostream_setprecision16 c
      (run_setters getJsonToken ostream_setprecision16 calls v).
Proof. unfold run_setters. now rewrite fold_left_app. Qed.

(** X9: after any sequence of setter calls the value is the one that the
    latest call not rejected gives on a fresh value; when every call is
    rejected, the value is the one the sequence started with. *)
Theorem setter_sequence_last_accepted_wins
    (calls : list setter_call) (v : UniValue) :
  run_setters getJsonToken ostream_setprecision16 calls v
  = match last_accepted getJsonToken calls with
    | Some c => run_setter getJsonToken ostream_setprecision16 c NullUniValue
    | None => v
    end.
Proof.
  induction calls as [|c calls IH] using rev_ind; [reflexivity|].
  rewrite run_setters_snoc. unfold last_accepted in *.
  rewrite rev_app_distr. cbn [rev app find].
  pose proof (run_setter_resets getJsonToken ostream_setprecision16 c) as H.
  destruct (rejected getJsonToken c); cbn [negb].
  - rewrite H. exact IH.
  - apply H.
Qed.

(** X10: a value whose unselected payloads are empty keeps this property
    through any sequence of setter calls, rejected ones included. *)
Theorem setter_sequence_keeps_payload_consistent
    (calls : list setter_call) (v : UniValue)
    (Hv : payload_consistent v) :
  payload_consistent
    (run_setters getJsonToken ostream_setprecision16 calls v).
Proof.
  induction calls as [|c calls IH] using rev_ind; [exact Hv|].
  rewrite run_setters_snoc.
  pose proof (run_setter_resets getJsonToken ostream_setprecision16 c) as H.
  destruct (rejected getJsonToken c).
  - rewrite H. exact IH.
  - apply H.
Qed.

End SetterSequenceProperties.

Lemma NullUniValue_payload_consistent : payload_consistent NullUniValue.
Proof. repeat split. Defined.

Lemma setter_sequence_keeps_payload_consistent_witness :
  payload_consistent NullUniValue
  /\ payload_consistent
       (run_setters json_number_token classic_setprecision16
          [call_setObject_from example_object; call_setNumStr "x";
           call_setStr "text"; call_setFloat PrimFloat.nan]
          NullUniValue).
Proof.
  split; [exact NullUniValue_payload_consistent|].
  exact (setter_sequence_keeps_payload_consistent
           json_number_token classic_setprecision16
           [call_setObject_from example_object; call_setNumStr "x";
            call_setStr "text"; call_setFloat PrimFloat.nan]
           NullUniValue NullUniValue_payload_consistent).
Defined.

Example setter_sequence_example :
  run_setters json_number_token classic_setprecision16
    [call_setObject_from example_object; call_setNumStr "x";
     call_setStr "text"; call_setFloat PrimFloat.nan]
    (example_number "1")
  = mkUniValue VSTR "text" [] [].
Proof. vm_compute. reflexivity. Qed.

Example GetDifficulty_examples :
  map GetDifficulty [486604799; 453248203; 545259519]
  = [1; 16307.420938523983; 4.6565423739069247e-10]%float
  /\ double_of_int64 9007199254740993 = 9007199254740992%float
  /\ double_of_int64 (-3) = (-3)%float.
Proof. vm_compute. repeat split. Qed.

Example CalculateTruncatedMedian_examples :
  map (fun l => fst (CalculateTruncatedMedian l))
    [[]; [5]; [3; 1]; [2; 1]; [-1; -2]; [9; 1; 5]; [4; 1; 3; 2]]
  = [0; 5; 2; 1; -1; 5; 2].
Proof. vm_compute. reflexivity. Qed.

Example CalculatePercentilesBySize_examples :
  fst (CalculatePercentilesBySize [0; 0; 0; 0; 0]
         [(30, 10); (10, 10); (20, 10); (40, 10); (50, 60)] 100)
  = [10; 30; 50; 50; 50]
  /\ fst (CalculatePercentilesBySize [7; 7; 7; 7; 7] [] 100)
     = [7; 7; 7; 7; 7]
  /\ fst (CalculatePercentilesBySize [0; 0; 0; 0; 0] [(3, 1); (1, 1)] 1000)
     = [3; 3; 3; 3; 3].
Proof. vm_compute. repeat split. Qed.

(** ** Sorting *)

Section SortProperties.

Context {A : Type} (leb : A -> A -> bool).
Hypothesis leb_total : forall x y, leb x y = false -> leb y x = true.
Hypothesis leb_trans :
  forall x y z, leb x y = true -> leb y z = true -> leb x z = true.
Hypothesis leb_antisym : forall x y, leb x y = true -> leb y x = true -> x = y.

Lemma insert_sorted_perm (x : A) (l : list A) :
  Permutation (insert_sorted leb x l) (x :: l).
Proof.
  induction l as [|y r IH]; simpl; [reflexivity|].
  destruct (leb x y); [reflexivity|].
  rewrite IH. apply perm_swap.
Qed.

Lemma std_sort_perm (l : list A) : Permutation (std_sort leb l) l.
Proof.
  induction l as [|x r IH]; simpl; [reflexivity|].
  rewrite insert_sorted_perm. now constructor.
Qed.

Lemma insert_sorted_sorted (x : A) (l : list A) :
  StronglySorted (fun a b => leb a b = true) l ->
  StronglySorted (fun a b => leb a b = true) (insert_sorted leb x l).
Proof.
  induction 1 as [|y r Hr IH Hy]; simpl.
  - constructor; constructor.
  - destruct (leb x y) eqn:E.
    + constructor; [constructor; assumption|].
      constructor; [exact E|].
      eapply Forall_impl; [|exact Hy]. intros z Hz. exact (leb_trans _ _ _ E Hz).
    + constructor; [exact IH|].
      eapply Permutation_Forall;
        [apply Permutation_sym, insert_sorted_perm|].
      constructor; [exact (leb_total _ _ E) | exact Hy].
Qed.

Lemma std_sort_sorted (l : list A) :
  StronglySorted (fun a b => leb a b = true) (std_sort leb l).
Proof.
  induction l as [|x r IH]; simpl; [constructor|].
  apply insert_sorted_sorted, IH.
Qed.

Lemma sorted_perm_unique (l1 : list A) :
  forall l2,
    StronglySorted (fun a b => leb a b = true) l1 ->
    StronglySorted (fun a b => leb a b = true) l2 ->
    Permutation l1 l2 -> l1 = l2.
Proof.
  induction l1 as [|x r1 IH]; intros l2 H1 H2 Hp.
  - apply Permutation_nil in Hp. now subst.
  - destruct l2 as [|y r2];
      [apply Permutation_sym, Permutation_nil in Hp; discriminate|].
    inversion H1 as [|? ? Hr1 Hx]; subst.
    inversion H2 as [|? ? Hr2 Hy]; subst.
    assert (Hxy : x = y).
    { assert (Hin1 : In x (y :: r2))
        by (eapply Permutation_in; [exact Hp | left; reflexivity]).
      assert (Hin2 : In y (x :: r1))
        by (eapply Permutation_in;
            [apply Permutation_sym; exact Hp | left; reflexivity]).
      destruct Hin1 as [-> | Hin1]; [reflexivity|].
      destruct Hin2 as [-> | Hin2]; [reflexivity|].
      rewrite Forall_forall in Hx, Hy.
      apply leb_antisym; [apply Hx, Hin2 | apply Hy, Hin1]. }
    subst y. f_equal. apply IH; try assumption.
    eapply Permutation_cons_inv. exact Hp.
Qed.

Lemma std_sort_perm_invariant (l l' : list A) :
  Permutation l l' -> std_sort leb l = std_sort leb l'.
Proof.
  intros Hp. apply sorted_perm_unique; try apply std_sort_sorted.
  rewrite !std_sort_perm. exact Hp.
Qed.

End SortProperties.

Lemma Zleb_total (x y : Z) : (x <=? y) = false -> (y <=? x) = true.
Proof. rewrite Z.leb_gt, Z.leb_le. lia. Qed.

Lemma Zleb_trans (x y z : Z) :
  (x <=? y) = true -> (y <=? z) = true -> (x <=? z) = true.
Proof. rewrite !Z.leb_le. lia. Qed.

Lemma Zleb_antisym (x y : Z) : (x <=? y) = true -> (y <=? x) = true -> x = y.
Proof. rewrite !Z.leb_le. lia. Qed.

Lemma pair_leb_le (a b : Z * Z) : pair_leb a b = true <-> pair_le a b.
Proof.
  unfold pair_leb, pair_le.
  rewrite orb_true_iff, andb_true_iff, Z.ltb_lt, Z.eqb_eq, Z.leb_le.
  reflexivity.
Qed.

Lemma pair_leb_total (a b : Z * Z) : pair_leb a b = false -> pair_leb b a = true.
Proof.
  intros H. apply pair_leb_le.
  assert (Hn : ~ pair_le a b) by (rewrite <- pair_leb_le; congruence).
  unfold pair_le in *. lia.
Qed.

Lemma pair_leb_trans (a b c : Z * Z) :
  pair_leb a b = true -> pair_leb b c = true -> pair_leb a c = true.
Proof. rewrite !pair_leb_le. unfold pair_le. lia. Qed.

Lemma pair_leb_antisym (a b : Z * Z) :
  pair_leb a b = true -> pair_leb b a = true -> a = b.
Proof.
  rewrite !pair_leb_le. unfold pair_le. destruct a, b; simpl.
  intros H1 H2. f_equal; lia.
Qed.

Lemma std_sort_Z_sorted (l : list Z) : StronglySorted Z.le (std_sort Z.leb l).
Proof.
  pose proof (std_sort_sorted Z.leb Zleb_total Zleb_trans l) as H.
  induction H as [|x r Hr IH Hx]; constructor; [exact IH|].
  eapply Forall_impl; [|exact Hx]. intros y Hy. now apply Z.leb_le.
Qed.

Lemma std_sort_pair_sorted (l : list (Z * Z)) :
  StronglySorted pair_le (std_sort pair_leb l).
Proof.
  pose proof (std_sort_sorted pair_leb pair_leb_total pair_leb_trans l) as H.
  induction H as [|x r Hr IH Hx]; constructor; [exact IH|].
  eapply Forall_impl; [|exact Hx]. intros y Hy. now apply pair_leb_le.
Qed.

(** ** Median *)

Lemma wrap64_small (z : Z) :
  - 9223372036854775808 <= z < 9223372036854775808 -> wrap64 z = z.
Proof. intros H. unfold wrap64. rewrite Z.mod_small; lia. Qed.

Lemma quot2_between (lo hi : Z) : lo <= hi -> lo <= Z.quot (lo + hi) 2 <= hi.
Proof.
  intros H. pose proof (Z.quot_rem' (lo + hi) 2) as Hqr.
  destruct (Z_le_gt_dec 0 (lo + hi)) as [Hpos | Hneg].
  - pose proof (Z.rem_bound_pos (lo + hi) 2 Hpos eq_refl) as Hr.
    set (q := Z.quot (lo + hi) 2) in *. set (r := Z.rem (lo + hi) 2) in *.
    clearbody q r. lia.
  - assert (Hle : lo + hi <= 0) by lia.
    pose proof (Z.rem_bound_pos_neg (lo + hi) 2 eq_refl Hle) as Hr.
    set (q := Z.quot (lo + hi) 2) in *. set (r := Z.rem (lo + hi) 2) in *.
    clearbody q r. lia.
Qed.

Lemma sorted_nth_le (s : list Z) :
  StronglySorted Z.le s ->
  forall i j, (i <= j < List.length s)%nat -> nth i s 0 <= nth j s 0.
Proof.
  induction 1 as [|x r Hr IH Hx]; intros i j Hij; simpl in Hij; [lia|].
  destruct i as [|i], j as [|j]; simpl; try lia.
  - rewrite Forall_forall in Hx. apply Hx, nth_In. lia.
  - apply IH. lia.
Qed.

Lemma count_le_sorted (s : list Z) :
  StronglySorted Z.le s ->
  forall k bound,
    (k < List.length s)%nat -> nth k s 0 <= bound ->
    (k + 1 <= count_le bound s)%nat.
Proof.
  induction 1 as [|x r Hr IH Hx]; intros k bound Hk Hb; simpl in Hk; [lia|].
  unfold count_le in *. cbn [filter].
  assert (Hxb : (x <=? bound) = true).
  { apply Z.leb_le. destruct k as [|k]; [exact Hb|].
    simpl in Hb. rewrite Forall_forall in Hx.
    assert (Hk' : (k < List.length r)%nat) by lia.
    specialize (Hx (nth k r 0) (@nth_In _ k r 0 Hk')). lia. }
  rewrite Hxb. cbn [List.length].
  destruct k as [|k]; [lia|].
  simpl in Hb. specialize (IH k bound ltac:(lia) Hb). lia.
Qed.

Lemma filter_all_length {A : Type} (f : A -> bool) (l : list A) :
  Forall (fun x => f x = true) l -> List.length (filter f l) = List.length l.
Proof.
  induction 1 as [|x r Hx _ IH]; simpl; [reflexivity|].
  rewrite Hx. simpl. now rewrite IH.
Qed.

Lemma count_ge_sorted (s : list Z) :
  StronglySorted Z.le s ->
  forall k bound,
    (k < List.length s)%nat -> bound <= nth k s 0 ->
    (List.length s - k <= count_ge bound s)%nat.
Proof.
  induction 1 as [|x r Hr IH Hx]; intros k bound Hk Hb; simpl in Hk; [lia|].
  unfold count_ge in *. destruct k as [|k].
  - simpl in Hb. rewrite filter_all_length; [lia|].
    constructor; [apply Z.leb_le; exact Hb|].
    eapply Forall_impl; [|exact Hx]. intros y Hy. apply Z.leb_le. lia.
  - simpl in Hb. specialize (IH k bound ltac:(lia) Hb).
    cbn [filter List.length]. destruct (bound <=? x); cbn [List.length]; lia.
Qed.

Lemma filter_length_perm {A : Type} (f : A -> bool) (l l' : list A) :
  Permutation l l' ->
  List.length (filter f l) = List.length (filter f l').
Proof.
  induction 1 as [|x l l' _ IH|x y l|l l' l'' _ IH1 _ IH2]; simpl.
  - reflexivity.
  - destruct (f x); simpl; now rewrite IH.
  - destruct (f x), (f y); reflexivity.
  - now rewrite IH1.
Qed.

Lemma std_sort_Z_length (l : list Z) :
  List.length (std_sort Z.leb l) = List.length l.
Proof. apply Permutation_length, std_sort_perm. Qed.

Lemma std_sort_Z_nth_In (l : list Z) (i : nat) :
  (i < List.length l)%nat -> In (nth i (std_sort Z.leb l) 0) l.
Proof.
  intros Hi. eapply Permutation_in; [apply std_sort_perm|].
  apply nth_In. now rewrite std_sort_Z_length.
Qed.

(** X11: [CalculateTruncatedMedian] leaves the vector sorted in ascending
    order with the elements it had, and neither its result nor the vector
    it leaves depends on the order in which the elements were given; on an
    empty vector it returns zero. *)
Theorem median_sorts_and_ignores_order
    (scores scores' : list Z) (Hperm : Permutation scores scores') :
  Permutation (snd (CalculateTruncatedMedian scores)) scores
  /\ StronglySorted Z.le (snd (CalculateTruncatedMedian scores))
  /\ CalculateTruncatedMedian scores = CalculateTruncatedMedian scores'
  /\ CalculateTruncatedMedian [] = (0, []).
Proof.
  assert (Hsnd : forall l, snd (CalculateTruncatedMedian l) = std_sort Z.leb l).
  { intros l. unfold CalculateTruncatedMedian.
    destruct l as [|x r]; [reflexivity|]. cbn [List.length Nat.eqb].
    destruct (Nat.eqb (S (List.length r) mod 2) 0); reflexivity. }
  split; [rewrite Hsnd; apply std_sort_perm|].
  split; [rewrite Hsnd; apply std_sort_Z_sorted|].
  split; [|reflexivity].
  unfold CalculateTruncatedMedian.
  rewrite (Permutation_length Hperm).
  rewrite (std_sort_perm_invariant Z.leb Zleb_total Zleb_trans Zleb_antisym
             _ _ Hperm).
  destruct (Nat.eqb (List.length scores') 0) eqn:E; [|reflexivity].
  apply Nat.eqb_eq, length_zero_iff_nil in E. subst scores'.
  apply Permutation_sym, Permutation_nil in Hperm. now subst.
Qed.

Lemma median_sorts_and_ignores_order_witness :
  Permutation example_scores (rev example_scores)
  /\ CalculateTruncatedMedian example_scores
     = CalculateTruncatedMedian (rev example_scores)
  /\ snd (CalculateTruncatedMedian example_scores) = [1; 2; 3; 4].
Proof.
  split; [apply Permutation_rev|].
  destruct (median_sorts_and_ignores_order
              example_scores (rev example_scores)
              (Permutation_rev example_scores)) as (_ & _ & Heq & _).
  split; [exact Heq | reflexivity].
Defined.

(** X12: on a non-empty vector of values whose pairwise sums fit 64 bits,
    the result of [CalculateTruncatedMedian] lies between two elements, at
    least half of the elements are at most the result and at least half are
    at least the result; for an odd number of elements the result is one of
    them. *)
Theorem median_splits_in_halves
    (scores : list Z)
    (Hne : scores <> [])
    (Hrange : Forall half_range scores) :
  (exists lo hi,
      In lo scores /\ In hi scores
      /\ lo <= fst (CalculateTruncatedMedian scores) <= hi)
  /\ (List.length scores
      <= 2 * count_le (fst (CalculateTruncatedMedian scores)) scores)%nat
  /\ (List.length scores
      <= 2 * count_ge (fst (CalculateTruncatedMedian scores)) scores)%nat
  /\ (Nat.odd (List.length scores) = true ->
      In (fst (CalculateTruncatedMedian scores)) scores).
Proof.
  set (s := std_sort Z.leb scores).
  set (n := List.length scores).
  assert (Hn : (0 < n)%nat)
    by (subst n; destruct scores; [contradiction | simpl; lia]).
  assert (Hs : StronglySorted Z.le s) by apply std_sort_Z_sorted.
  assert (Hlen : List.length s = n) by apply std_sort_Z_length.
  assert (Hcl : forall b, count_le b scores = count_le b s).
  { intros b. apply filter_length_perm, Permutation_sym, std_sort_perm. }
  assert (Hcg : forall b, count_ge b scores = count_ge b s).
  { intros b. apply filter_length_perm, Permutation_sym, std_sort_perm. }
  assert (Hin : forall i, (i < n)%nat -> In (nth i s 0) scores)
    by (intros i Hi; apply std_sort_Z_nth_In; exact Hi).
  rewrite Forall_forall in Hrange.
  unfold CalculateTruncatedMedian. fold n. fold s.
  destruct (Nat.eqb n 0) eqn:E0; [apply Nat.eqb_eq in E0; lia|].
  pose proof (Nat.div_mod_eq n 2) as Hdm.
  pose proof (Nat.mod_upper_bound n 2 ltac:(lia)) as Hmod.
  destruct (Nat.eqb (n mod 2) 0) eqn:E2; cbn [fst].
  - apply Nat.eqb_eq in E2.
    set (lo := nth (n / 2 - 1) s 0). set (hi := nth (n / 2) s 0).
    assert (Hlohi : lo <= hi) by (apply sorted_nth_le; [exact Hs | lia]).
    assert (Hi1 : (n / 2 - 1 < n)%nat) by lia.
    assert (Hi2 : (n / 2 < n)%nat) by lia.
    pose proof (Hrange lo (Hin _ Hi1)) as Rlo.
    pose proof (Hrange hi (Hin _ Hi2)) as Rhi.
    unfold half_range in Rlo, Rhi.
    rewrite wrap64_small by lia.
    pose proof (quot2_between lo hi Hlohi) as Hq.
    split; [exists lo, hi; repeat split; try apply Hin; lia|].
    split; [|split].
    + rewrite Hcl.
      pose proof (count_le_sorted s Hs (n / 2 - 1) (Z.quot (lo + hi) 2)
                    ltac:(lia) ltac:(fold lo; lia)). lia.
    + rewrite Hcg.
      pose proof (count_ge_sorted s Hs (n / 2) (Z.quot (lo + hi) 2)
                    ltac:(lia) ltac:(fold hi; lia)). lia.
    + intros Hodd. rewrite Nat.odd_spec in Hodd.
      destruct Hodd as [k Hk]. lia.
  - apply Nat.eqb_neq in E2.
    split; [exists (nth (n / 2) s 0), (nth (n / 2) s 0);
            repeat split; try apply Hin; lia|].
    split; [|split].
    + rewrite Hcl.
      pose proof (count_le_sorted s Hs (n / 2) (nth (n / 2) s 0)
                    ltac:(lia) ltac:(lia)). lia.
    + rewrite Hcg.
      pose proof (count_ge_sorted s Hs (n / 2) (nth (n / 2) s 0)
                    ltac:(lia) ltac:(lia)). lia.
    + intros _. apply Hin. lia.
Qed.

Lemma half_range_example : Forall half_range example_scores.
Proof. repeat constructor; unfold half_range; lia. Defined.

Lemma median_splits_in_halves_witness :
  example_scores <> []
  /\ Forall half_range example_scores
  /\ (List.length example_scores
      <= 2 * count_le (fst (CalculateTruncatedMedian example_scores))
             example_scores)%nat.
Proof.
  split; [discriminate|]. split; [exact half_range_example|].
  apply (median_splits_in_halves example_scores).
  - discriminate.
  - exact half_range_example.
Defined.

(** ** Percentiles by size *)

Lemma assign_length (i : nat) (x : Z) (l : list Z) :
  List.length (assign i x l) = List.length l.
Proof.
  revert i. induction l as [|y r IH]; intros [|i]; simpl; auto.
Qed.

Lemma nth_assign_same (i : nat) (x : Z) (l : list Z) :
  (i < List.length l)%nat -> nth i (assign i x l) 0 = x.
Proof.
  revert i. induction l as [|y r IH]; intros [|i] Hi; simpl in *;
    try lia; try reflexivity. apply IH. lia.
Qed.

Lemma nth_assign_other (i j : nat) (x : Z) (l : list Z) :
  i <> j -> nth j (assign i x l) 0 = nth j l 0.
Proof.
  revert i j. induction l as [|y r IH]; intros [|i] [|j] Hij; simpl;
    try reflexivity; try lia.
  apply IH. lia.
Qed.

(** The fuel of the inner loop never runs out: with as much fuel as there
    are percentiles left, one more turn changes nothing. *)
Lemma assign_reached_enough_fuel (fuel : nat) :
  forall weights cw x result next,
    (NUM_GETBLOCKSTATS_PERCENTILES - next <= fuel)%nat ->
    assign_reached (S fuel) weights cw x result next
    = assign_reached fuel weights cw x result next.
Proof.
  unfold NUM_GETBLOCKSTATS_PERCENTILES.
  induction fuel as [|fuel IH]; intros weights cw x result next Hf.
  - cbn [assign_reached]. unfold NUM_GETBLOCKSTATS_PERCENTILES.
    assert (H : (next <? 5)%nat = false) by (apply Nat.ltb_ge; lia).
    now rewrite H.
  - change (assign_reached (S (S fuel)) weights cw x result next)
      with (if (next <? NUM_GETBLOCKSTATS_PERCENTILES)%nat
               && (nth next weights 0 <=? double_of_int64 cw)%float
            then assign_reached (S fuel) weights cw x
                   (assign next x result) (S next)
            else (result, next)).
    change (assign_reached (S fuel) weights cw x result next)
      with (if (next <? NUM_GETBLOCKSTATS_PERCENTILES)%nat
               && (nth next weights 0 <=? double_of_int64 cw)%float
            then assign_reached fuel weights cw x
                   (assign next x result) (S next)
            else (result, next)).
    destruct ((next <? NUM_GETBLOCKSTATS_PERCENTILES)%nat
              && (nth next weights 0 <=? double_of_int64 cw)%float);
      [|reflexivity].
    apply IH. lia.
Qed.

(** What the inner loop does to the array: the positions from the index it
    starts with up to the index it ends with take the value, the others
    keep theirs. *)
Lemma assign_reached_effect (fuel : nat) :
  forall weights cw x result next result' next',
    assign_reached fuel weights cw x result next = (result', next') ->
    (next <= next')%nat
    /\ ((next <= 5)%nat -> (next' <= 5)%nat)
    /\ List.length result' = List.length result
    /\ (forall j, (j < next \/ next' <= j)%nat ->
                  nth j result' 0 = nth j result 0)
    /\ (forall j, (next <= j < next')%nat -> (j < List.length result)%nat ->
                  nth j result' 0 = x).
Proof.
  induction fuel as [|fuel IH]; intros weights cw x result next result' next' H;
    cbn [assign_reached] in H.
  - inversion H; subst. repeat split; intros; solve [lia | reflexivity].
  - destruct ((next <? NUM_GETBLOCKSTATS_PERCENTILES)%nat
              && (nth next weights 0 <=? double_of_int64 cw)%float) eqn:E.
    + apply andb_true_iff in E. destruct E as [E _].
      apply Nat.ltb_lt in E. unfold NUM_GETBLOCKSTATS_PERCENTILES in E.
      destruct (IH _ _ _ _ _ _ _ H) as (Hle & Hfive & Hlen & Hout & Hin).
      rewrite assign_length in Hlen, Hin.
      split; [lia|]. split; [intros _; apply Hfive; lia|].
      split; [exact Hlen|]. split.
      * intros j Hj. rewrite Hout by lia. apply nth_assign_other. lia.
      * intros j Hj Hjl. destruct (Nat.eq_dec j next) as [-> | Hne].
        -- rewrite Hout by lia. now apply nth_assign_same.
        -- apply Hin; lia.
    + inversion H; subst. repeat split; intros; solve [lia | reflexivity].
Qed.

Lemma pair_le_fst (a b : Z * Z) : pair_le a b -> fst a <= fst b.
Proof. unfold pair_le. lia. Qed.

(** What the loop over the sorted scores does to the array, from the state
    it is entered with. *)
Lemma percentile_loop_effect (weights : list float) (scores : list (Z * Z)) :
  StronglySorted pair_le scores ->
  forall result next cw result' next',
    (next <= 5)%nat -> List.length result = 5%nat ->
    percentile_loop weights scores result next cw = (result', next') ->
    (next <= next' <= 5)%nat
    /\ List.length result' = 5%nat
    /\ (forall j, (j < next)%nat -> nth j result' 0 = nth j result 0)
    /\ (forall j, (next <= j < next')%nat ->
                  exists element, In element scores
                                  /\ nth j result' 0 = fst element)
    /\ (forall i j, (next <= i)%nat -> (i <= j)%nat -> (j < next')%nat ->
                    nth i result' 0 <= nth j result' 0).
Proof.
  induction 1 as [|e rest Hrest IH He];
    intros result next cw result' next' Hnext Hlen H;
    cbn [percentile_loop] in H.
  - inversion H; subst. repeat split; intros; solve [lia | reflexivity].
  - destruct (assign_reached NUM_GETBLOCKSTATS_PERCENTILES weights
                (wrap64 (cw + snd e)) (fst e) result next)
      as [r1 n1] eqn:E1.
    destruct (assign_reached_effect _ _ _ _ _ _ _ _ E1)
      as (Hle1 & Hfive1 & Hlen1 & Hout1 & Hin1).
    specialize (Hfive1 Hnext).
    destruct (IH r1 n1 _ result' next' Hfive1 ltac:(lia) H)
      as (Hle & Hlen' & Hkeep & Hfrom & Hmono).
    assert (Hval : forall j, (next <= j < n1)%nat -> nth j result' 0 = fst e).
    { intros j Hj. rewrite Hkeep by lia. apply Hin1; lia. }
    split; [lia|]. split; [exact Hlen'|]. split; [|split].
    + intros j Hj. rewrite Hkeep by lia. apply Hout1. lia.
    + intros j Hj. destruct (Nat.lt_ge_cases j n1) as [Hlt | Hge].
      * exists e. split; [left; reflexivity | apply Hval; lia].
      * destruct (Hfrom j ltac:(lia)) as (e' & Hin' & Heq).
        exists e'. split; [right; exact Hin' | exact Heq].
    + intros i j Hi Hij Hj.
      destruct (Nat.lt_ge_cases j n1) as [Hjlt | Hjge].
      * rewrite !Hval by lia. lia.
      * destruct (Nat.lt_ge_cases i n1) as [Hilt | Hige].
        -- rewrite (Hval i) by lia.
           destruct (Hfrom j ltac:(lia)) as (e' & Hin' & ->).
           rewrite Forall_forall in He. apply pair_le_fst, He, Hin'.
        -- apply Hmono; lia.
Qed.

Lemma fill_from_effect (count : nat) :
  forall i x result,
    List.length (fill_from count i x result) = List.length result
    /\ (forall j, (j < i \/ i + count <= j)%nat ->
                  nth j (fill_from count i x result) 0 = nth j result 0)
    /\ (forall j, (i <= j < i + count)%nat -> (j < List.length result)%nat ->
                  nth j (fill_from count i x result) 0 = x).
Proof.
  induction count as [|count IH]; intros i x result; cbn [fill_from].
  - repeat split; intros; solve [lia | reflexivity].
  - destruct (IH (S i) x (assign i x result)) as (Hlen & Hout & Hin).
    rewrite assign_length in Hlen, Hin.
    split; [exact Hlen|]. split.
    + intros j Hj. rewrite Hout by lia. apply nth_assign_other. lia.
    + intros j Hj Hjl. destruct (Nat.eq_dec j i) as [-> | Hne].
      * rewrite Hout by lia. now apply nth_assign_same.
      * apply Hin; lia.
Qed.

Lemma sorted_last_greatest (s : list (Z * Z)) :
  StronglySorted pair_le s ->
  forall element, In element s -> fst element <= fst (last s (0, 0)).
Proof.
  induction 1 as [|e rest Hrest IH He]; intros element Hin; [destruct Hin|].
  destruct rest as [|e' rest'].
  - destruct Hin as [<- | []]. simpl. lia.
  - change (last (e :: e' :: rest') (0, 0)) with (last (e' :: rest') (0, 0)).
    destruct Hin as [<- | Hin]; [|apply IH, Hin].
    rewrite Forall_forall in He.
    pose proof (pair_le_fst _ _ (He e' (or_introl eq_refl))).
    pose proof (IH e' (or_introl eq_refl)). lia.
Qed.

Lemma last_In {A : Type} (l : list A) (d : A) : l <> [] -> In (last l d) l.
Proof.
  induction l as [|x r IH]; intros Hne; [contradiction|].
  destruct r as [|y r']; [left; reflexivity|].
  right. apply IH. discriminate.
Qed.

(** X13: with no score, [CalculatePercentilesBySize] leaves the five
    results as they were.  With scores, it overwrites all five: each result
    is the first component of one of the scores, and the results never
    decrease from one percentile to the next; the vector is left sorted by
    first and then second component, with the elements it had. *)
Theorem percentiles_are_scores_in_order
    (result : list Z) (scores : list (Z * Z)) (total_size : Z)
    (Hlen : List.length result = NUM_GETBLOCKSTATS_PERCENTILES) :
  CalculatePercentilesBySize result [] total_size = (result, [])
  /\ (scores <> [] ->
      List.length (fst (CalculatePercentilesBySize result scores total_size))
      = NUM_GETBLOCKSTATS_PERCENTILES
      /\ Forall (fun r => In r (map fst scores))
           (fst (CalculatePercentilesBySize result scores total_size))
      /\ (forall i j,
            (i <= j < NUM_GETBLOCKSTATS_PERCENTILES)%nat ->
            nth i (fst (CalculatePercentilesBySize result scores total_size)) 0
            <= nth j
                 (fst (CalculatePercentilesBySize result scores total_size))
                 0))
  /\ Permutation (snd (CalculatePercentilesBySize result scores total_size))
       scores
  /\ StronglySorted pair_le
       (snd (CalculatePercentilesBySize result scores total_size)).
Proof.
  unfold NUM_GETBLOCKSTATS_PERCENTILES in *.
  split; [reflexivity|].
  destruct scores as [|e0 rest0].
  { split; [intros H; contradiction|]. split; [reflexivity | constructor]. }
  set (scores := e0 :: rest0).
  assert (Escores : scores = e0 :: rest0) by reflexivity.
  set (s := std_sort pair_leb scores).
  assert (Hs : StronglySorted pair_le s) by apply std_sort_pair_sorted.
  assert (Hp : Permutation s scores) by apply std_sort_perm.
  assert (Hcalc :
            CalculatePercentilesBySize result scores total_size
            = (let '(r, n) :=
                 percentile_loop (percentile_weights total_size) s result 0 0
               in (fill_from (5 - n) n (fst (last s (0, 0))) r, s)))
    by reflexivity.
  rewrite Hcalc. clearbody scores.
  destruct (percentile_loop (percentile_weights total_size) s result 0 0)
    as [r n] eqn:El.
  cbn [fst snd].
  destruct (percentile_loop_effect _ s Hs result 0%nat 0 r n
              ltac:(lia) Hlen El) as (Hle & Hlenr & _ & Hfrom & Hmono).
  destruct (fill_from_effect (5 - n) n (fst (last s (0, 0))) r)
    as (Hflen & Hfout & Hfin).
  assert (Hsne : s <> []).
  { intros Hnil. rewrite Hnil in Hp. apply Permutation_nil in Hp.
    rewrite Escores in Hp. discriminate. }
  assert (Hlast : In (last s (0, 0)) s) by (apply last_In; exact Hsne).
  assert (Hnth : forall j, (j < 5)%nat ->
             exists element,
               In element s
               /\ nth j (fill_from (5 - n) n (fst (last s (0, 0))) r) 0
                  = fst element).
  { intros j Hj. destruct (Nat.lt_ge_cases j n) as [Hlt | Hge].
    - destruct (Hfrom j ltac:(lia)) as (e & Hin & Heq).
      exists e. split; [exact Hin|]. rewrite Hfout by lia. exact Heq.
    - exists (last s (0, 0)). split; [exact Hlast|]. apply Hfin; lia. }
  split; [|split; [exact Hp | exact Hs]].
  intros _. split; [lia|]. split.
  - apply Forall_nth. intros j d Hj. rewrite Hflen, Hlenr in Hj.
    rewrite (nth_indep _ d 0) by lia.
    destruct (Hnth j Hj) as (e & Hin & ->).
    apply in_map. eapply Permutation_in; [exact Hp | exact Hin].
  - intros i j Hij.
    destruct (Nat.lt_ge_cases j n) as [Hjlt | Hjge].
    + rewrite !Hfout by lia. apply Hmono; lia.
    + rewrite (Hfin j) by lia.
      destruct (Hnth i ltac:(lia)) as (e & Hin & ->).
      apply sorted_last_greatest; assumption.
Qed.

(** X14: the results of [CalculatePercentilesBySize], and the vector it
    leaves, do not depend on the order in which the scores were given. *)
Theorem percentiles_ignore_order
    (result : list Z) (scores scores' : list (Z * Z)) (total_size : Z)
    (Hperm : Permutation scores scores') :
  CalculatePercentilesBySize result scores total_size
  = CalculatePercentilesBySize result scores' total_size.
Proof.
  destruct scores as [|e rest] eqn:E.
  - apply Permutation_nil in Hperm. now subst.
  - destruct scores' as [|e' rest'] eqn:E'.
    + apply Permutation_sym, Permutation_nil in Hperm. discriminate.
    + unfold CalculatePercentilesBySize.
      rewrite (std_sort_perm_invariant pair_leb pair_leb_total pair_leb_trans
                 pair_leb_antisym _ _ Hperm).
      reflexivity.
Qed.

Lemma percentiles_example_length :
  List.length [0; 0; 0; 0; 0] = NUM_GETBLOCKSTATS_PERCENTILES.
Proof. reflexivity. Defined.

Lemma percentiles_are_scores_in_order_witness :
  List.length [0; 0; 0; 0; 0] = NUM_GETBLOCKSTATS_PERCENTILES
  /\ example_feerates <> []
  /\ Forall (fun r => In r (map fst example_feerates))
       (fst (CalculatePercentilesBySize [0; 0; 0; 0; 0] example_feerates 100)).
Proof.
  split; [exact percentiles_example_length|]. split; [discriminate|].
  destruct (percentiles_are_scores_in_order
              [0; 0; 0; 0; 0] example_feerates 100
              percentiles_example_length) as (_ & Hfull & _).
  apply Hfull. discriminate.
Defined.

Lemma percentiles_ignore_order_witness :
  Permutation example_feerates (rev example_feerates)
  /\ CalculatePercentilesBySize [0; 0; 0; 0; 0] example_feerates 100
     = CalculatePercentilesBySize [0; 0; 0; 0; 0] (rev example_feerates) 100.
Proof.
  split; [apply Permutation_rev|].
  apply percentiles_ignore_order. apply Permutation_rev.
Defined.

(** ** Difficulty *)

Lemma difficulty_scale_up_infinity (fuel : nat) :
  forall nShift,
    fst (difficulty_scale_up fuel PrimFloat.infinity nShift)
    = PrimFloat.infinity.
Proof.
  induction fuel as [|fuel IH]; intros nShift; cbn [difficulty_scale_up];
    [reflexivity|].
  destruct (nShift <? 29); [|reflexivity].
  change (PrimFloat.infinity * 256)%float with PrimFloat.infinity. apply IH.
Qed.

Lemma difficulty_scale_down_infinity (fuel : nat) :
  forall nShift,
    fst (difficulty_scale_down fuel PrimFloat.infinity nShift)
    = PrimFloat.infinity.
Proof.
  induction fuel as [|fuel IH]; intros nShift; cbn [difficulty_scale_down];
    [reflexivity|].
  destruct (nShift >? 29); [|reflexivity].
  change (PrimFloat.infinity / 256)%float with PrimFloat.infinity. apply IH.
Qed.

(** X15: for a block index whose [nBits] has a zero mantissa, whatever the
    exponent byte, [GetDifficulty] divides by zero and returns plus
    infinity; [setFloat] called with this difficulty leaves the value it is
    called on as it was. *)
Theorem difficulty_of_zero_mantissa_is_infinite
    (ostream_setprecision16 : float -> string)
    (nBits : Z) (v : UniValue)
    (Hzero : Z.land nBits 16777215 = 0) :
  GetDifficulty nBits = PrimFloat.infinity
  /\ PrimFloat.is_finite (GetDifficulty nBits) = false
  /\ setFloat ostream_setprecision16 (GetDifficulty nBits) v = v.
Proof.
  assert (Hinf : GetDifficulty nBits = PrimFloat.infinity).
  { unfold GetDifficulty. rewrite Hzero.
    change (double_of_int64 65535 / double_of_int64 0)%float
      with PrimFloat.infinity.
    pose proof (difficulty_scale_up_infinity 256
                  (Z.land (Z.shiftr nBits 24) 255)) as Hup.
    destruct (difficulty_scale_up 256 PrimFloat.infinity
                (Z.land (Z.shiftr nBits 24) 255)) as [d n].
    cbn [fst] in Hup. subst d.
    pose proof (difficulty_scale_down_infinity 256 n) as Hdown.
    destruct (difficulty_scale_down 256 PrimFloat.infinity n) as [d' n'].
    exact Hdown. }
  rewrite Hinf. repeat split.
Qed.

Lemma difficulty_of_zero_mantissa_is_infinite_witness :
  Z.land example_nBits_zero_mantissa 16777215 = 0
  /\ GetDifficulty example_nBits_zero_mantissa = PrimFloat.infinity
  /\ setFloat classic_setprecision16
       (GetDifficulty example_nBits_zero_mantissa) (example_number "1")
     = example_number "1".
Proof.
  split; [reflexivity|].
  destruct (difficulty_of_zero_mantissa_is_infinite classic_setprecision16
              example_nBits_zero_mantissa (example_number "1") eq_refl)
    as (Hinf & _ & Hset).
  split; [exact Hinf | exact Hset].
Defined.

Lemma compact_nBits_fields (e m : Z) :
  0 <= e < 256 -> 0 <= m < 16777216 ->
  Z.land (Z.shiftr (compact_nBits e m) 24) 255 = e
  /\ Z.land (compact_nBits e m) 16777215 = m.
Proof.
  intros He Hm. unfold compact_nBits.
  change 255 with (Z.ones 8). change 16777215 with (Z.ones 24).
  rewrite !Z.land_ones by lia. rewrite Z.shiftr_div_pow2 by lia.
  change (2 ^ 24) with 16777216. change (2 ^ 8) with 256.
  assert (Hdiv : (e * 16777216 + m) / 16777216 = e).
  { rewrite Z.div_add_l by lia. rewrite Z.div_small by lia. lia. }
  rewrite Hdiv. split.
  - apply Z.mod_small. lia.
  - rewrite Z.add_comm, Z.mod_add by lia. apply Z.mod_small. lia.
Qed.

(** The first loop multiplies by 256 once for every step the exponent is
    below 29, and the fuel is enough for it. *)
Lemma difficulty_scale_up_iter (fuel : nat) :
  forall dDiff nShift,
    (Z.to_nat (29 - nShift) <= fuel)%nat ->
    difficulty_scale_up fuel dDiff nShift
    = (Nat.iter (Z.to_nat (29 - nShift)) (fun d => (d * 256)%float) dDiff,
       Z.max nShift 29).
Proof.
  induction fuel as [|fuel IH]; intros dDiff nShift Hf;
    cbn [difficulty_scale_up].
  - assert (Hz : Z.to_nat (29 - nShift) = 0%nat) by lia. rewrite Hz.
    simpl. f_equal. lia.
  - destruct (nShift <? 29) eqn:E.
    + apply Z.ltb_lt in E. rewrite IH by lia.
      replace (Z.to_nat (29 - nShift))
        with (S (Z.to_nat (29 - (nShift + 1)))) by lia.
      rewrite Nat.iter_succ_r. f_equal. lia.
    + apply Z.ltb_ge in E.
      assert (Hz : Z.to_nat (29 - nShift) = 0%nat) by lia. rewrite Hz.
      simpl. f_equal. lia.
Qed.

Lemma difficulty_scale_down_iter (fuel : nat) :
  forall dDiff nShift,
    (Z.to_nat (nShift - 29) <= fuel)%nat ->
    difficulty_scale_down fuel dDiff nShift
    = (Nat.iter (Z.to_nat (nShift - 29)) (fun d => (d / 256)%float) dDiff,
       Z.min nShift 29).
Proof.
  induction fuel as [|fuel IH]; intros dDiff nShift Hf;
    cbn [difficulty_scale_down].
  - assert (Hz : Z.to_nat (nShift - 29) = 0%nat) by lia. rewrite Hz.
    simpl. f_equal. lia.
  - destruct (nShift >? 29) eqn:E.
    + apply Z.gtb_lt in E. rewrite IH by lia.
      replace (Z.to_nat (nShift - 29))
        with (S (Z.to_nat (nShift - 1 - 29))) by lia.
      rewrite Nat.iter_succ_r. f_equal. lia.
    + assert (Hle : nShift <= 29).
      { destruct (Z.gtb_spec nShift 29); [discriminate | lia]. }
      assert (Hz : Z.to_nat (nShift - 29) = 0%nat) by lia. rewrite Hz.
      simpl. f_equal. lia.
Qed.

Lemma GetDifficulty_compact (e m : Z) :
  0 <= e < 256 -> 0 <= m < 16777216 ->
  GetDifficulty (compact_nBits e m)
  = Nat.iter (Z.to_nat (e - 29)) (fun d => (d / 256)%float)
      (Nat.iter (Z.to_nat (29 - e)) (fun d => (d * 256)%float)
         (double_of_int64 65535 / double_of_int64 m)%float).
Proof.
  intros He Hm. unfold GetDifficulty.
  destruct (compact_nBits_fields e m He Hm) as [-> ->].
  rewrite difficulty_scale_up_iter by lia.
  rewrite difficulty_scale_down_iter by lia.
  f_equal. lia.
Qed.

(** X16: the two loops of [GetDifficulty] end for every exponent byte, and
    the exponent scales the difficulty in steps of 256: at exponent 29 the
    difficulty is 65535 divided by the mantissa, below 29 each step down
    multiplies the difficulty by 256, and from 29 on each step up divides it
    by 256. *)
Theorem difficulty_scales_by_exponent
    (e m : Z) (He : 0 <= e < 255) (Hm : 0 <= m < 16777216) :
  GetDifficulty (compact_nBits 29 m)
  = (double_of_int64 65535 / double_of_int64 m)%float
  /\ (e < 29 ->
      GetDifficulty (compact_nBits e m)
      = (GetDifficulty (compact_nBits (e + 1) m) * 256)%float)
  /\ (29 <= e ->
      GetDifficulty (compact_nBits (e + 1) m)
      = (GetDifficulty (compact_nBits e m) / 256)%float).
Proof.
  split; [|split].
  - rewrite GetDifficulty_compact by lia. reflexivity.
  - intros Hlt. rewrite !GetDifficulty_compact by lia.
    replace (Z.to_nat (e - 29)) with 0%nat by lia.
    replace (Z.to_nat (e + 1 - 29)) with 0%nat by lia.
    replace (Z.to_nat (29 - e)) with (S (Z.to_nat (29 - (e + 1)))) by lia.
    reflexivity.
  - intros Hge. rewrite !GetDifficulty_compact by lia.
    replace (Z.to_nat (29 - e)) with 0%nat by lia.
    replace (Z.to_nat (29 - (e + 1))) with 0%nat by lia.
    replace (Z.to_nat (e + 1 - 29)) with (S (Z.to_nat (e - 29))) by lia.
    reflexivity.
Qed.

Lemma difficulty_scales_by_exponent_witness :
  0 <= 28 < 255 /\ 0 <= 65535 < 16777216
  /\ GetDifficulty (compact_nBits 29 65535) = 1%float
  /\ GetDifficulty (compact_nBits 28 65535)
     = (GetDifficulty (compact_nBits 29 65535) * 256)%float.
Proof.
  split; [lia|]. split; [lia|].
  destruct (difficulty_scales_by_exponent 28 65535) as (_ & Hdown & _);
    [lia | lia |].
  split; [reflexivity|]. apply Hdown. lia.
Defined.
